(** * n00bz: the Twitch credential store and the EventSub connection thread

    A shallow embedding of [first/authdb.py] and [first/twitch_eventsub.py],
    and the properties of the two that the design document states.

    - [Py]       the Python exceptions the two files can raise, and the
                 result type of a call that may raise;
    - [AuthDb]   the [twitch_tokens] table, the statements run against it,
                 [TwitchAuthDb] and [TwitchAuthDbUserTokenProvider];
    - [EventSub] [TwitchEventSubWebSocketThread]: its fields, the
                 methods called by the threads of the program and the
                 background thread, as an interleaving of the blocks that
                 run with [_lock] held and the blocking calls made between
                 them. *)

From Stdlib Require Import ZArith Lia Bool Sorted Permutation.
From stdpp Require Import base list strings.

#[local] Open Scope string_scope.
#[local] Open Scope list_scope.

(* ===================================================================== *)
(** * Python values and exceptions                                         *)
(* ===================================================================== *)

Module Py.

(** The reasons for which the interpreter itself raises [TypeError] in
    the two files; the text of these errors depends on the version of
    the interpreter, the reason does not. *)
Inductive type_error_reason : Type :=
| NotCallable        (* calling an object that has no __call__ *)
| NotSubscriptable   (* obj[key] where obj is no mapping *)
| CannotUnpackNone   (* x, = None *)
| BadOperandNone.    (* None + "Z" *)

Inductive exn : Type :=
| UserNotFoundError
| NotImplementedError (msg : string)
| AssertionError (msg : string)
| TypeError (why : type_error_reason)
| TypeErrorMsg (msg : string)          (* raise TypeError("...") *)
| KeyError (key : string)
| ConnectionClosedOK
| ConnectionClosedError
| ExternalError (what : string).       (* raised by a collaborator *)

(** A call returns a value or raises. *)
Definition result (A : Type) : Type := exn + A.

Definition ok {A} (a : A) : result A := inr a.
Definition raise {A} (e : exn) : result A := inl e.

Definition bind {A B} (r : result A) (k : A -> result B) : result B :=
  match r with
  | inl e => inl e
  | inr a => k a
  end.

End Py.

Import Py.

(* ===================================================================== *)
(** * first/authdb.py                                                      *)
(* ===================================================================== *)

Module AuthDb.

Definition TwitchUserId : Type := string.
Definition Token : Type := string.

(** The value of SQLite's [CURRENT_TIMESTAMP]: the text
    [YYYY-MM-DD HH:MM:SS] in UTC. Its resolution is one second and its
    width is fixed, so two such texts are equal, or ordered, as the
    numbers of seconds they denote are; a timestamp is kept as that
    number of whole seconds. *)
Definition Timestamp : Type := Z.

(** [datetime.fromisoformat(text + "Z")]: the time the text denotes, read
    as UTC. *)
Definition Time : Type := Z.
Definition fromisoformat_Z (t : Timestamp) : Time := t.

(** ** The table

    [[
    CREATE TABLE IF NOT EXISTS twitch_tokens(
      user_id UNIQUE, access_token, refresh_token,
      created_at TIMESTAMP DEFAULT CURRENT_TIMESTAMP,
      updated_at TIMESTAMP DEFAULT CURRENT_TIMESTAMP)
    ]]
    The two timestamp columns are nullable. *)
Record row : Type := Row {
  user_id : TwitchUserId;
  access_token : Token;
  refresh_token : Token;
  created_at : option Timestamp;
  updated_at : option Timestamp;
}.

(** Rows in rowid order. *)
Definition table : Type := list row.

(** [WHERE user_id = :user_id] *)
Definition is_user (u : TwitchUserId) (r : row) : bool :=
  String.eqb (user_id r) u.

Definition select_where_user_id (u : TwitchUserId) (t : table) : list row :=
  List.filter (is_user u) t.

(** [cursor.fetchone()] *)
Definition fetchone {A} (rows : list A) : option A :=
  match rows with
  | [] => None
  | r :: _ => Some r
  end.

(** The order of the index SQLite keeps for the [UNIQUE] constraint on
    [user_id]: text is compared byte by byte, a proper prefix first. *)
Definition index_le (a b : TwitchUserId) : Prop := String.leb a b = true.

Fixpoint index_insert (u : TwitchUserId) (ids : list TwitchUserId)
  : list TwitchUserId :=
  match ids with
  | [] => [u]
  | x :: ids' => if String.leb u x then u :: ids else x :: index_insert u ids'
  end.

Definition index_order (ids : list TwitchUserId) : list TwitchUserId :=
  List.fold_right index_insert [] ids.

Definition in_index_order (ids : list TwitchUserId) : Prop := Sorted index_le ids.

(** [SELECT user_id FROM twitch_tokens] read with [fetchmany] until it
    returns no rows. The statement has no [ORDER BY]; SQLite answers it
    from the index on [user_id], which holds all it asks for, so the ids
    come in the order of that index and not in the order of insertion. *)
Definition select_user_ids (t : table) : list TwitchUserId :=
  index_order (List.map user_id t).

(** The [UNIQUE] constraint on [user_id]. *)
Definition unique_user_ids (t : table) : Prop :=
  NoDup (List.map user_id t).

Definition count_user (u : TwitchUserId) (t : table) : nat :=
  length (select_where_user_id u t).

(** ** The upsert statement

    [[
    INSERT INTO twitch_tokens (user_id, access_token, refresh_token)
    VALUES(:user_id, :access_token, :refresh_token)
    ON CONFLICT (user_id)
    DO UPDATE SET access_token = :access_token, refresh_token = :refresh_token
    ]] *)

(** The row the [INSERT] adds: both timestamps take their default. *)
Definition inserted_row (now : Timestamp) (u : TwitchUserId) (a r : Token) : row :=
  {| user_id := u; access_token := a; refresh_token := r;
     created_at := Some now; updated_at := Some now |}.

(** [DO UPDATE SET access_token = :access_token, refresh_token = :refresh_token] *)
Definition do_update_set (a r : Token) (old : row) : row :=
  {| user_id := user_id old; access_token := a; refresh_token := r;
     created_at := created_at old; updated_at := updated_at old |}.

(** The conflicting row, if any, is updated in place; the result carries
    the row before and after (the trigger's [OLD] and [NEW]). *)
Fixpoint on_conflict_do_update (u : TwitchUserId) (a r : Token) (t : table)
  : option (table * row * row) :=
  match t with
  | [] => None
  | x :: t' =>
      if is_user u x then Some (do_update_set a r x :: t', x, do_update_set a r x)
      else match on_conflict_do_update u a r t' with
           | Some (t'', old, new) => Some (x :: t'', old, new)
           | None => None
           end
  end.

(** ** The trigger

    [[
    CREATE TRIGGER IF NOT EXISTS [UPDATE_DT]
      AFTER UPDATE ON twitch_tokens FOR EACH ROW
      WHEN OLD.updated_at = NEW.updated_at OR OLD.updated_at IS NULL
    BEGIN
      UPDATE twitch_tokens SET updated_at=CURRENT_TIMESTAMP WHERE user_id=NEW.user_id;
    END;
    ]]
    The [UPDATE] of the body does not fire the trigger again
    (SQLite's recursive triggers are off unless a pragma turns them on,
    and the file sets none). *)

(** SQL's [=]: true only of two values that are not null and equal. *)
Definition sql_eq (x y : option Timestamp) : bool :=
  match x, y with
  | Some a, Some b => Z.eqb a b
  | _, _ => false
  end.

Definition is_null (x : option Timestamp) : bool :=
  match x with None => true | Some _ => false end.

Definition UPDATE_DT_when (old new : row) : bool :=
  sql_eq (updated_at old) (updated_at new) || is_null (updated_at old).

Definition set_updated_at (now : Timestamp) (x : row) : row :=
  {| user_id := user_id x; access_token := access_token x;
     refresh_token := refresh_token x;
     created_at := created_at x; updated_at := Some now |}.

Definition UPDATE_DT_body (now : Timestamp) (new : row) (t : table) : table :=
  List.map (fun x => if is_user (user_id new) x then set_updated_at now x else x) t.

(** The whole statement, with the trigger it fires; [now] is the value of
    [CURRENT_TIMESTAMP] while it runs. *)
Definition execute_upsert (now : Timestamp) (u : TwitchUserId) (a r : Token)
    (t : table) : table :=
  match on_conflict_do_update u a r t with
  | None => t ++ [inserted_row now u a r]
  | Some (t', old, new) =>
      if UPDATE_DT_when old new then UPDATE_DT_body now new t' else t'
  end.

(** What the statement and its trigger together do to a row: the row of
    the user gets the two tokens, then the time of the write. *)
Definition upserted (now : Timestamp) (u : TwitchUserId) (a r : Token)
    (x : row) : row :=
  if is_user u x then set_updated_at now (do_update_set a r x) else x.

(** ** TwitchAuthDb

    [self.db]: what the connection sees ([rows]) and what has been
    committed to the file ([committed]). Every method runs with
    [__lock] held from its first statement to its last, so a method is
    one transition of the store. *)
Record TwitchAuthDb : Type := Db {
  rows : table;
  committed : table;
}.

Definition commit (db : TwitchAuthDb) : TwitchAuthDb :=
  {| rows := rows db; committed := rows db |}.

Definition update_or_create_user (now : Timestamp) (u : TwitchUserId)
    (a r : Token) (db : TwitchAuthDb) : TwitchAuthDb :=
  commit {| rows := execute_upsert now u a r (rows db);
            committed := committed db |}.

Definition get_access_token (db : TwitchAuthDb) (u : TwitchUserId) : result Token :=
  match fetchone (select_where_user_id u (rows db)) with
  | None => raise UserNotFoundError
  | Some x => ok (access_token x)
  end.

Definition get_refresh_token (db : TwitchAuthDb) (u : TwitchUserId) : result Token :=
  match fetchone (select_where_user_id u (rows db)) with
  | None => raise UserNotFoundError
  | Some x => ok (refresh_token x)
  end.

Definition get_all_user_ids_slow (db : TwitchAuthDb) : list TwitchUserId :=
  select_user_ids (rows db).

(** [created_at, = result.fetchone()] unpacks [None] when there is no
    row, and [created_at + "Z"] adds a string to [None] when the column
    is null. *)
Definition get_created_at_time (db : TwitchAuthDb) (u : TwitchUserId) : result Time :=
  match fetchone (select_where_user_id u (rows db)) with
  | None => raise (TypeError CannotUnpackNone)
  | Some x =>
      match created_at x with
      | None => raise (TypeError BadOperandNone)
      | Some t => ok (fromisoformat_Z t)
      end
  end.

Definition get_updated_at_time (db : TwitchAuthDb) (u : TwitchUserId) : result Time :=
  match fetchone (select_where_user_id u (rows db)) with
  | None => raise (TypeError CannotUnpackNone)
  | Some x =>
      match updated_at x with
      | None => raise (TypeError BadOperandNone)
      | Some t => ok (fromisoformat_Z t)
      end
  end.

(** [t1 < t2] for two timestamps read back from the store. *)
Definition strictly_later (r1 r2 : result Time) : Prop :=
  match r1, r2 with
  | inr t1, inr t2 => (t1 < t2)%Z
  | _, _ => False
  end.

(** The store of a new database file. *)
Definition empty_db : TwitchAuthDb := {| rows := []; committed := [] |}.

(** ** TwitchAuthDbUserTokenProvider *)

(** What [Twitch().refresh_auth_token] returns. *)
Record RefreshResult : Type := {
  new_access_token : Token;
  new_refresh_token : Token;
}.

(** The store together with the refresh tokens sent to the endpoint so
    far, oldest first. *)
Record world : Type := World {
  authdb : TwitchAuthDb;
  refresh_calls : list Token;
}.

(** A method of the provider: it reads and writes the world and may
    raise; the world it leaves is the one at the raise. *)
Definition M (A : Type) : Type := world -> result A * world.

Definition ret {A} (a : A) : M A := fun w => (ok a, w).

Definition mbind {A B} (m : M A) (k : A -> M B) : M B :=
  fun w =>
    match m w with
    | (inl e, w') => (inl e, w')
    | (inr a, w') => k a w'
    end.

Notation "'do' x <- m ; k" := (mbind m (fun x => k))
  (at level 10, x name, m at level 100, k at level 200).

Definition read_db {A} (f : TwitchAuthDb -> result A) : M A :=
  fun w => (f (authdb w), w).

Definition write_db (f : TwitchAuthDb -> TwitchAuthDb) : M unit :=
  fun w => (ok tt, {| authdb := f (authdb w); refresh_calls := refresh_calls w |}).

Record TwitchAuthDbUserTokenProvider : Type := Provider {
  _user_id : TwitchUserId;
}.

Section Provider.

(** The OAuth refresh endpoint, [Twitch().refresh_auth_token]. *)
Variable refresh_auth_token : Token -> result RefreshResult.

Definition call_refresh_auth_token (rt : Token) : M RefreshResult :=
  fun w => (refresh_auth_token rt,
            {| authdb := authdb w; refresh_calls := refresh_calls w ++ [rt] |}).

Definition provider_get_access_token (p : TwitchAuthDbUserTokenProvider) : M Token :=
  read_db (fun db => get_access_token db (_user_id p)).

(** [now] is the value of [CURRENT_TIMESTAMP] when the upsert runs. *)
Definition refresh_access_token (now : Timestamp)
    (p : TwitchAuthDbUserTokenProvider) : M Token :=
  do rt <- read_db (fun db => get_refresh_token db (_user_id p));
  do refresh_result <- call_refresh_auth_token rt;
  do _u <- write_db (update_or_create_user now (_user_id p)
                       (new_access_token refresh_result)
                       (new_refresh_token refresh_result));
  ret (new_access_token refresh_result).

End Provider.

(** ** Histories of the store *)

(** One call of [update_or_create_user]: its arguments, and the value of
    [CURRENT_TIMESTAMP] while its statement runs. *)
Record upsert_call : Type := Upsert {
  at_time : Timestamp;
  for_user : TwitchUserId;
  with_access : Token;
  with_refresh : Token;
}.

Definition call_upsert (c : upsert_call) (db : TwitchAuthDb) : TwitchAuthDb :=
  update_or_create_user (at_time c) (for_user c) (with_access c) (with_refresh c) db.

(** The calls of a list made in order, the first of the list first. *)
Fixpoint apply_upserts (calls : list upsert_call) (db : TwitchAuthDb) : TwitchAuthDb :=
  match calls with
  | [] => db
  | c :: rest => apply_upserts rest (call_upsert c db)
  end.

(** The clock does not run backwards: it reads at least [start] at the
    first call, and at each call at least what it read at the one before. *)
Fixpoint clock_from (start : Timestamp) (calls : list upsert_call) : Prop :=
  match calls with
  | [] => True
  | c :: rest => (start <= at_time c)%Z /\ clock_from (at_time c) rest
  end.

(** The time of the last call, [start] when there is none. *)
Fixpoint last_time (start : Timestamp) (calls : list upsert_call) : Timestamp :=
  match calls with
  | [] => start
  | c :: rest => last_time (at_time c) rest
  end.

(** [created_at <= updated_at <= bound], neither null. *)
Definition row_times_within (bound : Timestamp) (x : row) : Prop :=
  match created_at x, updated_at x with
  | Some c, Some u => (c <= u)%Z /\ (u <= bound)%Z
  | _, _ => False
  end.

End AuthDb.

Import AuthDb.

(* ===================================================================== *)
(** * first/twitch_eventsub.py                                             *)
(* ===================================================================== *)

Module EventSub.

(** ** Decoded JSON, as [json.loads] returns it *)
#[local] Set Warnings "-register-all".
Inductive json : Type :=
| JNull
| JBool (b : bool)
| JInt (n : Z)
| JFloat (digits : string)
| JStr (s : string)
| JList (items : list json)
| JDict (items : list (string * json)).

#[local] Set Warnings "register-all".

Fixpoint dict_get (k : string) (d : list (string * json)) : option json :=
  match d with
  | [] => None
  | (k', v) :: d' => if String.eqb k' k then Some v else dict_get k d'
  end.

(** [obj[key]] with a string key: a dict looks the key up, anything else
    raises [TypeError]. *)
Definition getitem (obj : json) (key : string) : result json :=
  match obj with
  | JDict d =>
      match dict_get key d with
      | Some v => ok v
      | None => raise (KeyError key)
      end
  | _ => raise (TypeError NotSubscriptable)
  end.

(** [obj == "text"] *)
Definition eq_str (obj : json) (text : string) : bool :=
  match obj with
  | JStr s => String.eqb s text
  | _ => false
  end.

(** [message["metadata"]["message_type"]] *)
Definition message_type_of (msg : json) : result json :=
  bind (getitem msg "metadata") (fun m => getitem m "message_type").

(** [message['payload']['session']['id']] *)
Definition session_id_of (msg : json) : result json :=
  bind (bind (getitem msg "payload") (fun p => getitem p "session"))
       (fun se => getitem se "id").

(** What [client.recv()] returns: [str] or [bytes]. *)
Inductive message : Type :=
| Text (s : string)
| Binary (b : list Byte.byte).

(** ** The fields of TwitchEventSubWebSocketThread *)

Record _Subscription : Type := Subscription {
  type : string;
  version : string;
  condition : json;
}.

(** A [ClientConnection] is open until some thread calls [close] on it. *)
Inductive socket_state : Type := SockOpen | SockClosed.

(** Where a background thread is in [_run_thread]. The thread holds
    [_lock] only inside a step, never between two steps. *)
Inductive thread_pc : Type :=
| AtCreate
    (* top of the loop: about to run the first locked block of
       _maybe_create_client *)
| Connecting
    (* inside websockets.sync.client.connect *)
| Connected (client : nat)
    (* connect has returned: about to run the second locked block *)
| InRecv (client : nat)
    (* in _handle_client, inside client.recv() *)
| FinallyClose (client : nat) (pending : option exn)
    (* finally: about to call client.close() *)
| FinallyClear (client : nat) (pending : option exn)
    (* finally: about to run the locked block that clears _client *)
| Exited (raised : option exn).
    (* _run_thread has returned, or an exception has left it *)

(** Where a thread of the program that calls the methods is in
    [stop_thread]; [Idle] outside the call. *)
Inductive caller_pc : Type :=
| Idle
| StopClose (client : option nat)   (* after the first locked block *)
| StopRead                          (* before the second locked block *)
| StopJoin (thread : option nat).   (* about to join *)

(** The instance, the [Thread] and [ClientConnection] objects its fields
    point to (by index), the requests the API client has been sent, the
    caller whose calls are followed, and the other threads of the program
    that are in, or have been in, [stop_thread]. *)
Record manager : Type := Manager {
  _subscriptions : list _Subscription;
  _thread : option nat;
  _should_stop : bool;
  _client : option nat;
  threads : list thread_pc;
  sockets : list socket_state;
  eventsub_requests : list json;
  caller : caller_pc;
  others : list caller_pc;
}.

(** [__init__] *)
Definition init : manager :=
  {| _subscriptions := []; _thread := None; _should_stop := false;
     _client := None; threads := []; sockets := [];
     eventsub_requests := []; caller := Idle; others := [] |}.

Definition set_subscriptions (v : list _Subscription) (s : manager) : manager :=
  {| _subscriptions := v; _thread := _thread s; _should_stop := _should_stop s;
     _client := _client s; threads := threads s; sockets := sockets s;
     eventsub_requests := eventsub_requests s; caller := caller s;
     others := others s |}.

Definition set_thread (v : option nat) (s : manager) : manager :=
  {| _subscriptions := _subscriptions s; _thread := v; _should_stop := _should_stop s;
     _client := _client s; threads := threads s; sockets := sockets s;
     eventsub_requests := eventsub_requests s; caller := caller s;
     others := others s |}.

Definition set_should_stop (v : bool) (s : manager) : manager :=
  {| _subscriptions := _subscriptions s; _thread := _thread s; _should_stop := v;
     _client := _client s; threads := threads s; sockets := sockets s;
     eventsub_requests := eventsub_requests s; caller := caller s;
     others := others s |}.

Definition set_client (v : option nat) (s : manager) : manager :=
  {| _subscriptions := _subscriptions s; _thread := _thread s;
     _should_stop := _should_stop s;
     _client := v; threads := threads s; sockets := sockets s;
     eventsub_requests := eventsub_requests s; caller := caller s;
     others := others s |}.

Definition set_threads (v : list thread_pc) (s : manager) : manager :=
  {| _subscriptions := _subscriptions s; _thread := _thread s;
     _should_stop := _should_stop s;
     _client := _client s; threads := v; sockets := sockets s;
     eventsub_requests := eventsub_requests s; caller := caller s;
     others := others s |}.

Definition set_sockets (v : list socket_state) (s : manager) : manager :=
  {| _subscriptions := _subscriptions s; _thread := _thread s;
     _should_stop := _should_stop s;
     _client := _client s; threads := threads s; sockets := v;
     eventsub_requests := eventsub_requests s; caller := caller s;
     others := others s |}.

Definition set_requests (v : list json) (s : manager) : manager :=
  {| _subscriptions := _subscriptions s; _thread := _thread s;
     _should_stop := _should_stop s;
     _client := _client s; threads := threads s; sockets := sockets s;
     eventsub_requests := v; caller := caller s;
     others := others s |}.

Definition set_caller (v : caller_pc) (s : manager) : manager :=
  {| _subscriptions := _subscriptions s; _thread := _thread s;
     _should_stop := _should_stop s;
     _client := _client s; threads := threads s; sockets := sockets s;
     eventsub_requests := eventsub_requests s; caller := v;
     others := others s |}.

Definition set_others (v : list caller_pc) (s : manager) : manager :=
  {| _subscriptions := _subscriptions s; _thread := _thread s;
     _should_stop := _should_stop s;
     _client := _client s; threads := threads s; sockets := sockets s;
     eventsub_requests := eventsub_requests s; caller := caller s;
     others := v |}.

Definition set_other (k : nat) (pc : caller_pc) (s : manager) : manager :=
  set_others (<[k := pc]> (others s)) s.

Definition set_pc (t : nat) (pc : thread_pc) (s : manager) : manager :=
  set_threads (<[t := pc]> (threads s)) s.

(** [client.close()] *)
Definition close (c : nat) (s : manager) : manager :=
  set_sockets (<[c := SockClosed]> (sockets s)) s.

(** [thread.is_alive()] *)
Definition exited (pc : thread_pc) : bool :=
  match pc with Exited _ => true | _ => false end.

Definition is_alive (t : nat) (s : manager) : bool :=
  match threads s !! t with
  | Some pc => negb (exited pc)
  | None => false
  end.

(** ** The caller's operations *)

(** [NotImplemented] is the constant of rich comparisons, not the
    exception class [NotImplementedError]: calling it raises
    [TypeError], so the [raise] statement never gets an exception to
    raise. *)
Definition call_NotImplemented (msg : string) : result exn :=
  raise (TypeError NotCallable).

Definition add_subscription (type version : string) (condition : json)
    (s : manager) : result manager :=
  match _thread s with
  | Some _ =>
      bind (call_NotImplemented "dynamic subscriptions are not yet implemented")
           (fun e => raise e)
  | None =>
      ok (set_subscriptions
            (_subscriptions s ++ [Subscription type version condition]) s)
  end.

Definition start_thread (s : manager) : result manager :=
  match _subscriptions s with
  | [] => raise (AssertionError "at least one subscription is required")
  | _ :: _ =>
      if match _thread s with
         | None => true
         | Some t => negb (is_alive t s)
         end
      then ok (set_thread (Some (length (threads s)))
                 (set_threads (threads s ++ [AtCreate]) s))
      else raise (AssertionError "thread must not be already running")
  end.

(** [stop_thread], block by block. *)
Definition stop_thread_flag (s : manager) : manager :=
  set_caller (StopClose (_client s)) (set_should_stop true s).

Definition stop_thread_close (client : option nat) (s : manager) : manager :=
  set_caller StopRead
    (match client with
     | Some c => close c s
     | None => s
     end).

Definition stop_thread_read (s : manager) : manager :=
  set_caller (StopJoin (_thread s)) s.

(** [thread.join()] returns once the thread is no longer alive. *)
Definition stop_thread_join (thread : option nat) (s : manager) : option manager :=
  match thread with
  | None => Some (set_caller Idle s)
  | Some t => if is_alive t s then None else Some (set_caller Idle s)
  end.

(** [stop_thread] called by another thread of the program: the same four
    parts, the place of that thread kept in [others]. *)
Definition other_stop_flag (s : manager) : manager :=
  set_others (others s ++ [StopClose (_client s)]) (set_should_stop true s).

Definition other_stop_close (k : nat) (client : option nat) (s : manager) : manager :=
  set_other k StopRead
    (match client with
     | Some c => close c s
     | None => s
     end).

Definition other_stop_read (k : nat) (s : manager) : manager :=
  set_other k (StopJoin (_thread s)) s.

Definition other_stop_join (k : nat) (thread : option nat) (s : manager)
  : option manager :=
  match thread with
  | None => Some (set_other k Idle s)
  | Some t => if is_alive t s then None else Some (set_other k Idle s)
  end.

(** ** The background thread *)

(** What reaches a background thread from outside between two of its
    steps. *)
Inductive event : Type :=
| Tau                              (* nothing: the next block runs *)
| Connect (raised : option exn)    (* connect returns a client, or raises *)
| Recv (r : result message).       (* client.recv() returns, or raises *)

Section Collaborators.

(** [json.loads] *)
Variable json_loads : string -> result json.

(** [AuthenticatedTwitch.request_eventsub_subscription]: given the
    requests sent before and the request, the exception it raises, if
    any. *)
Variable request_eventsub_subscription : list json -> json -> option exn.

Definition subscription_request (session_id : json) (sub : _Subscription) : json :=
  JDict [("type", JStr (type sub));
         ("version", JStr (version sub));
         ("condition", condition sub);
         ("transport", JDict [("method", JStr "websocket");
                              ("session_id", session_id)])].

(** [for subscription in subscriptions: self._twitch.request_...({...})];
    a call that raises ends the loop. *)
Fixpoint request_each (session_id : json) (subs : list _Subscription)
    (sent : list json) : result unit * list json :=
  match subs with
  | [] => (ok tt, sent)
  | sub :: rest =>
      let req := subscription_request session_id sub in
      match request_eventsub_subscription sent req with
      | Some e => (raise e, sent ++ [req])
      | None => request_each session_id rest (sent ++ [req])
      end
  end.

Definition _handle_json_message (msg : json) (s : manager)
  : result unit * manager :=
  match message_type_of msg with
  | inl e => (inl e, s)
  | inr message_type =>
      if eq_str message_type "session_welcome" then
        match session_id_of msg with
        | inl e => (inl e, s)
        | inr session_id =>
            let '(r, sent) :=
              request_each session_id (_subscriptions s) (eventsub_requests s) in
            (r, set_requests sent s)
        end
      else (ok tt, s)
  end.

Definition _handle_raw_message (msg : message) (s : manager)
  : result unit * manager :=
  match msg with
  | Text text =>
      match json_loads text with
      | inl e => (inl e, s)
      | inr j => _handle_json_message j s
      end
  | Binary _ =>
      (raise (TypeErrorMsg "unsupported message type: <class 'bytes'>"), s)
  end.

(** One turn of the loop of [_handle_client], given what [recv] did:
    [None] when the loop goes on, [Some pending] when it is left, by
    [return] ([pending = None]) or by an exception. *)
Definition _handle_client_turn (r : result message) (s : manager)
  : option (option exn) * manager :=
  match r with
  | inl ConnectionClosedOK => (Some None, s)
  | inl ConnectionClosedError => (Some None, s)
  | inl e => (Some (Some e), s)
  | inr msg =>
      match _handle_raw_message msg s with
      | (inl e, s') => (Some (Some e), s')
      | (inr _, s') => (None, s')
      end
  end.

(** One step of background thread [t]. [None]: the thread cannot take
    this step from where it is. *)
Definition thread_step (t : nat) (ev : event) (s : manager) : option manager :=
  match threads s !! t with
  | None => None
  | Some pc =>
      match pc, ev with
      | AtCreate, Tau =>
          (* with self._lock: assert self._client is None;
                              if self._should_stop: return None *)
          Some (match _client s with
                | Some _ => set_pc t (Exited (Some (AssertionError ""))) s
                | None =>
                    if _should_stop s then set_pc t (Exited None) s
                    else set_pc t Connecting s
                end)
      | Connecting, Connect None =>
          Some (set_pc t (Connected (length (sockets s)))
                  (set_sockets (sockets s ++ [SockOpen]) s))
      | Connecting, Connect (Some e) =>
          Some (set_pc t (Exited (Some e)) s)
      | Connected c, Tau =>
          (* with self._lock: assert self._client is None;
                              if self._should_stop: client.close(); return None
                              self._client = client *)
          Some (match _client s with
                | Some _ => set_pc t (Exited (Some (AssertionError ""))) s
                | None =>
                    if _should_stop s then set_pc t (Exited None) (close c s)
                    else set_pc t (InRecv c) (set_client (Some c) s)
                end)
      | InRecv c, Recv r =>
          Some (match _handle_client_turn r s with
                | (None, s') => s'
                | (Some pending, s') => set_pc t (FinallyClose c pending) s'
                end)
      | FinallyClose c pending, Tau =>
          Some (set_pc t (FinallyClear c pending) (close c s))
      | FinallyClear c pending, Tau =>
          (* with self._lock: self._client = None *)
          Some (set_pc t (match pending with
                          | None => AtCreate
                          | Some e => Exited (Some e)
                          end)
                  (set_client None s))
      | _, _ => None
      end
  end.

(** ** The whole system: the callers and the background threads

    The object is used from any number of threads of the program.
    [add_subscription] and [start_thread] run in one locked block;
    [stop_thread] runs in the four parts above, and between two of them
    any other thread may take steps. The calls of one thread, the
    caller, are followed by name ([Call_], [Caller_continue]); the calls
    of every other thread are the [Other_] steps, which may come at any
    time, also while the caller is inside [stop_thread]. *)
Inductive label : Type :=
| Call_add_subscription (type version : string) (condition : json)
| Call_start_thread
| Call_stop_thread
| Caller_continue                 (* the caller goes on in stop_thread *)
| Thread (t : nat) (ev : event)
| Other_add_subscription (type version : string) (condition : json)
| Other_start_thread
| Other_stop_thread               (* one more thread enters stop_thread *)
| Other_continue (k : nat).       (* the k-th of them goes on *)

(** A call that raises leaves the instance as it was. *)
Definition or_unchanged (s : manager) (r : result manager) : manager :=
  match r with
  | inr s' => s'
  | inl _ => s
  end.

Definition caller_idle (s : manager) : bool :=
  match caller s with Idle => true | _ => false end.

Definition sys_step (l : label) (s : manager) : option manager :=
  match l with
  | Call_add_subscription ty v c =>
      if caller_idle s then Some (or_unchanged s (add_subscription ty v c s))
      else None
  | Call_start_thread =>
      if caller_idle s then Some (or_unchanged s (start_thread s)) else None
  | Call_stop_thread =>
      if caller_idle s then Some (stop_thread_flag s) else None
  | Caller_continue =>
      match caller s with
      | Idle => None
      | StopClose client => Some (stop_thread_close client s)
      | StopRead => Some (stop_thread_read s)
      | StopJoin thread => stop_thread_join thread s
      end
  | Thread t ev => thread_step t ev s
  | Other_add_subscription ty v c => Some (or_unchanged s (add_subscription ty v c s))
  | Other_start_thread => Some (or_unchanged s (start_thread s))
  | Other_stop_thread => Some (other_stop_flag s)
  | Other_continue k =>
      match others s !! k with
      | Some (StopClose client) => Some (other_stop_close k client s)
      | Some StopRead => Some (other_stop_read k s)
      | Some (StopJoin thread) => other_stop_join k thread s
      | Some Idle | None => None
      end
  end.

Fixpoint run (ls : list label) (s : manager) : option manager :=
  match ls with
  | [] => Some s
  | l :: ls' =>
      match sys_step l s with
      | Some s' => run ls' s'
      | None => None
      end
  end.

Definition step (s s' : manager) : Prop := exists l, sys_step l s = Some s'.

(** The states an instance can be in. *)
Inductive reachable : manager -> Prop :=
| reachable_init : reachable init
| reachable_step s s' : reachable s -> step s s' -> reachable s'.

(** [later s s']: [s'] is [s] or comes after it. *)
Inductive later (s : manager) : manager -> Prop :=
| later_refl : later s s
| later_step s' s'' : later s s' -> step s' s'' -> later s s''.

End Collaborators.

(** ** What holds of every state an instance can be in *)

(** The client a thread has made current, and not yet cleared. *)
Definition publishes (pc : thread_pc) : option nat :=
  match pc with
  | InRecv c | FinallyClose c _ | FinallyClear c _ => Some c
  | _ => None
  end.

(** The client a thread holds, current or not. *)
Definition holds (pc : thread_pc) : option nat :=
  match pc with
  | Connected c | InRecv c | FinallyClose c _ | FinallyClear c _ => Some c
  | _ => None
  end.

Definition current_pc (s : manager) : option thread_pc :=
  match _thread s with
  | Some t => threads s !! t
  | None => None
  end.

(** What holds of the thread [th] that a [stop_thread] has read from
    [_thread] and is about to join: it still is the thread of [_thread],
    or a thread has been started since, with the stop flag set, and is at
    its first test of the flag or has exited. *)
Definition joining (th : option nat) (s : manager) : Prop :=
  th = _thread s \/
  exists pc, current_pc s = Some pc /\ (pc = AtCreate \/ exited pc = true).

(** What holds of a calling thread at [pc] when the flag is [flag]. *)
Definition stopping_ok (flag : bool) (s : manager) (pc : caller_pc) : Prop :=
  (pc <> Idle -> flag = true) /\ (forall th, pc = StopJoin th -> joining th s).

Record inv (s : manager) : Prop := Inv {
  (* a thread that has not exited is the one _thread points to *)
  inv_alive : forall t pc,
    threads s !! t = Some pc -> exited pc = false -> _thread s = Some t;
  (* _thread points to the thread created last *)
  inv_last : length (threads s)
             = match _thread s with Some t => S t | None => 0 end;
  (* _client is what the thread of _thread has published *)
  inv_client : _client s
               = match current_pc s with Some pc => publishes pc | None => None end;
  (* a client held by a thread is one that connect returned *)
  inv_socket : forall t pc c,
    threads s !! t = Some pc -> holds pc = Some c -> c < length (sockets s);
  (* the thread stop_thread is about to join *)
  inv_join : forall th, caller s = StopJoin th -> joining th s;
  inv_join_others : forall k th, others s !! k = Some (StopJoin th) -> joining th s;
  (* inside stop_thread the flag is set *)
  inv_stopping : caller s <> Idle -> _should_stop s = true;
  inv_stopping_others : forall k pc,
    others s !! k = Some pc -> pc <> Idle -> _should_stop s = true;
  (* a thread was started only with a subscription registered *)
  inv_subscribed : _thread s <> None -> _subscriptions s <> [];
}.

(** No socket is opened from such a state: the flag is set and every
    thread is before its first test of the flag, or has exited. *)
Definition spent (s : manager) : Prop :=
  _should_stop s = true /\
  forall t pc, threads s !! t = Some pc -> pc = AtCreate \/ exited pc = true.

(** The client a thread has got from [connect] and not yet closed. *)
Definition to_close (pc : thread_pc) : option nat :=
  match pc with
  | Connected c | InRecv c | FinallyClose c _ => Some c
  | _ => None
  end.

(** Every socket that is open is the one the thread of [_thread] has to
    close. *)
Definition no_leak (s : manager) : Prop :=
  forall c, sockets s !! c = Some SockOpen ->
    exists pc, current_pc s = Some pc /\ to_close pc = Some c.

Definition all_closed (s : manager) : Prop :=
  forall c st, sockets s !! c = Some st -> st = SockClosed.

Definition all_exited (s : manager) : Prop :=
  forall t pc, threads s !! t = Some pc -> exited pc = true.

End EventSub.

(* ===================================================================== *)
(** * Concrete instances                                                   *)
(* ===================================================================== *)

Module Scenario.

Definition alice : TwitchUserId := "141981764".
Definition bob : TwitchUserId := "12826".

(** A store in which [alice] authorized at second 1700000000. *)
Definition db_alice : TwitchAuthDb :=
  update_or_create_user 1700000000%Z alice "access-0" "refresh-0" empty_db.

Definition world_alice : world :=
  {| authdb := db_alice; refresh_calls := [] |}.

(** An endpoint that rotates both tokens, and one that rejects the
    refresh token. *)
Definition refresh_rotates (rt : Token) : result RefreshResult :=
  ok {| new_access_token := "access-1"; new_refresh_token := "refresh-1" |}.

Definition refresh_rejects (rt : Token) : result RefreshResult :=
  raise (ExternalError "invalid refresh token").

(** The API client accepts every request, or rejects every request. *)
Definition api_accepts (sent : list EventSub.json) (req : EventSub.json)
  : option exn := None.

Definition api_rejects (sent : list EventSub.json) (req : EventSub.json)
  : option exn := Some (ExternalError "401 Unauthorized").

(** The welcome message of session [sid], decoded. *)
Definition welcome (sid : string) : EventSub.json :=
  EventSub.JDict
    [("metadata", EventSub.JDict
        [("message_id", EventSub.JStr "96a3f3b5-5dec-4eed-908e-e11ee657416c");
         ("message_type", EventSub.JStr "session_welcome");
         ("message_timestamp", EventSub.JStr "2023-07-19T14:56:51.634234626Z")]);
     ("payload", EventSub.JDict
        [("session", EventSub.JDict
            [("id", EventSub.JStr sid);
             ("status", EventSub.JStr "connected");
             ("keepalive_timeout_seconds", EventSub.JInt 10);
             ("reconnect_url", EventSub.JNull)])])].

(** A decoder for the one text the scenarios receive. *)
Definition json_loads (text : string) : result EventSub.json :=
  if String.eqb text "welcome S1" then ok (welcome "S1")
  else raise (ExternalError "JSONDecodeError").

Definition follow_condition : EventSub.json :=
  EventSub.JDict [("broadcaster_user_id", EventSub.JStr alice);
                  ("moderator_user_id", EventSub.JStr alice)].

Definition subscribe_condition : EventSub.json :=
  EventSub.JDict [("broadcaster_user_id", EventSub.JStr alice)].

Definition add_two : list EventSub.label :=
  [EventSub.Call_add_subscription "channel.follow" "2" follow_condition;
   EventSub.Call_add_subscription "channel.subscribe" "1" subscribe_condition].

(** Two subscriptions registered, nothing started. *)
Definition registered : EventSub.manager :=
  default EventSub.init (EventSub.run json_loads api_accepts add_two EventSub.init).

(** Started, connected, the client published: the thread is in [recv]. *)
Definition to_receiving : list EventSub.label :=
  add_two ++
  [EventSub.Call_start_thread;
   EventSub.Thread 0 EventSub.Tau;
   EventSub.Thread 0 (EventSub.Connect None);
   EventSub.Thread 0 EventSub.Tau].

Definition receiving : EventSub.manager :=
  default EventSub.init (EventSub.run json_loads api_accepts to_receiving EventSub.init).

(** A binary frame arrives, and the thread runs on as far as it can. *)
Definition to_binary_handled : list EventSub.label :=
  to_receiving ++
  [EventSub.Thread 0 (EventSub.Recv (ok (EventSub.Binary [Byte.x00; Byte.x01])));
   EventSub.Thread 0 EventSub.Tau;
   EventSub.Thread 0 EventSub.Tau].

(** [stop_thread] is called while the thread is connecting. *)
Definition to_stop_mid_connect : list EventSub.label :=
  add_two ++
  [EventSub.Call_start_thread;
   EventSub.Thread 0 EventSub.Tau;
   EventSub.Call_stop_thread].

Definition stop_mid_connect : EventSub.manager :=
  default EventSub.init
    (EventSub.run json_loads api_accepts to_stop_mid_connect EventSub.init).

(** [stop_thread] called in [recv], and run to its return. *)
Definition to_stopped : list EventSub.label :=
  to_receiving ++
  [EventSub.Call_stop_thread;
   EventSub.Caller_continue;
   EventSub.Thread 0 (EventSub.Recv (raise ConnectionClosedOK));
   EventSub.Caller_continue;
   EventSub.Thread 0 EventSub.Tau;
   EventSub.Thread 0 EventSub.Tau;
   EventSub.Thread 0 EventSub.Tau;
   EventSub.Caller_continue].

Definition stopped : EventSub.manager :=
  default EventSub.init (EventSub.run json_loads api_accepts to_stopped EventSub.init).

Definition binary_handled : EventSub.manager :=
  default EventSub.init
    (EventSub.run json_loads api_accepts to_binary_handled EventSub.init).

(** [stop_thread] called in [recv] and run up to its [join], the thread
    having exited. *)
Definition to_joining : list EventSub.label :=
  to_receiving ++
  [EventSub.Call_stop_thread;
   EventSub.Caller_continue;
   EventSub.Thread 0 (EventSub.Recv (raise ConnectionClosedOK));
   EventSub.Caller_continue;
   EventSub.Thread 0 EventSub.Tau;
   EventSub.Thread 0 EventSub.Tau;
   EventSub.Thread 0 EventSub.Tau].

Definition joining : EventSub.manager :=
  default EventSub.init (EventSub.run json_loads api_accepts to_joining EventSub.init).

(** A keepalive message, and a decoder that knows its text too. *)
Definition keepalive : EventSub.json :=
  EventSub.JDict
    [("metadata", EventSub.JDict
        [("message_id", EventSub.JStr "84c1e79a-2a4b-4c13-ba0b-4312293e9308");
         ("message_type", EventSub.JStr "session_keepalive");
         ("message_timestamp", EventSub.JStr "2023-07-19T10:11:12.634234626Z")]);
     ("payload", EventSub.JDict [])].

Definition json_loads_both (text : string) : result EventSub.json :=
  if String.eqb text "keepalive" then ok keepalive else json_loads text.

(** An API client that accepts the first request made and rejects the
    ones after it. *)
Definition api_accepts_one (sent : list EventSub.json) (req : EventSub.json)
  : option exn :=
  match sent with
  | [] => None
  | _ :: _ => Some (ExternalError "429 Too Many Requests")
  end.

End Scenario.

(* ===================================================================== *)
(** * The credential store: what the upsert does                           *)
(* ===================================================================== *)

Module AuthDbFacts.

Lemma is_user_true u x : is_user u x = true <-> user_id x = u.
Proof. unfold is_user. apply String.eqb_eq. Qed.

Lemma is_user_false u x : is_user u x = false <-> user_id x <> u.
Proof. unfold is_user. apply String.eqb_neq. Qed.

Lemma is_user_do_update_set u a r x :
  is_user u (do_update_set a r x) = is_user u x.
Proof. reflexivity. Qed.

Lemma is_user_set_updated_at u now x :
  is_user u (set_updated_at now x) = is_user u x.
Proof. reflexivity. Qed.

(** The trigger's [WHEN] holds after every [DO UPDATE] of the upsert:
    the statement leaves [updated_at] as it was. *)
Lemma UPDATE_DT_fires a r old :
  UPDATE_DT_when old (do_update_set a r old) = true.
Proof.
  unfold UPDATE_DT_when. simpl.
  destruct (updated_at old) as [t|]; simpl; [|reflexivity].
  rewrite Z.eqb_refl. reflexivity.
Qed.

Lemma map_id_absent (f : row -> row) u (t : table) :
  (forall x, is_user u x = false -> f x = x) ->
  existsb (is_user u) t = false ->
  List.map f t = t.
Proof.
  intros Hf. induction t as [|x t IH]; simpl; intros H; [reflexivity|].
  apply orb_false_iff in H as [Hx Ht].
  rewrite (Hf x Hx), (IH Ht). reflexivity.
Qed.

Lemma existsb_absent_NoDup u x (t : table) :
  NoDup (List.map user_id (x :: t)) -> is_user u x = true ->
  existsb (is_user u) t = false.
Proof.
  intros Hnd Hx. apply is_user_true in Hx. subst u.
  apply NoDup_cons in Hnd as [Hnotin _].
  apply not_true_is_false. intros He.
  apply existsb_exists in He as [y [Hy Hu]].
  apply is_user_true in Hu. apply Hnotin.
  apply list_elem_of_In. rewrite <- Hu. apply in_map. exact Hy.
Qed.

Lemma on_conflict_absent u a r (t : table) :
  existsb (is_user u) t = false -> on_conflict_do_update u a r t = None.
Proof.
  induction t as [|x t IH]; simpl; intros H; [reflexivity|].
  apply orb_false_iff in H as [Hx Ht]. rewrite Hx, (IH Ht). reflexivity.
Qed.

(** On a table that meets the [UNIQUE] constraint, the conflicting row is
    the one row of the user, and [DO UPDATE] rewrites it alone. *)
Lemma on_conflict_present u a r (t : table) :
  unique_user_ids t -> existsb (is_user u) t = true ->
  exists old,
    In old t /\ is_user u old = true /\
    on_conflict_do_update u a r t =
      Some (List.map (fun x => if is_user u x then do_update_set a r x else x) t,
            old, do_update_set a r old).
Proof.
  unfold unique_user_ids.
  induction t as [|x t IH]; simpl; intros Hnd H; [discriminate|].
  destruct (is_user u x) eqn:Hx.
  - exists x. split; [now left|]. split; [assumption|].
    rewrite (map_id_absent _ u t); [reflexivity| |].
    + intros y Hy. rewrite Hy. reflexivity.
    + eapply existsb_absent_NoDup; eassumption.
  - simpl in H. apply NoDup_cons in Hnd as [_ Hnd].
    destruct (IH Hnd H) as [old [Hin [Hold Heq]]].
    exists old. split; [now right|]. split; [assumption|].
    rewrite Heq. reflexivity.
Qed.

(** The upsert on a table that meets the constraint: the row of the user
    gets the two tokens and the time of the write, or, when the user has
    no row, a row is added at the end. *)
Lemma execute_upsert_spec now u a r (t : table) :
  unique_user_ids t ->
  execute_upsert now u a r t =
    if existsb (is_user u) t then List.map (upserted now u a r) t
    else t ++ [inserted_row now u a r].
Proof.
  intros Hnd. unfold execute_upsert.
  destruct (existsb (is_user u) t) eqn:He.
  - destruct (on_conflict_present u a r t Hnd He) as [old [_ [Hold Heq]]].
    rewrite Heq, UPDATE_DT_fires. unfold UPDATE_DT_body.
    rewrite List.map_map. apply List.map_ext. intros x. unfold upserted.
    apply is_user_true in Hold. simpl. rewrite Hold.
    destruct (is_user u x) eqn:Hx.
    + rewrite is_user_do_update_set, Hx. reflexivity.
    + rewrite Hx. reflexivity.
  - rewrite on_conflict_absent by assumption. reflexivity.
Qed.

Lemma filter_map_commute (p : row -> bool) (f : row -> row) (t : table) :
  (forall x, p (f x) = p x) ->
  List.filter p (List.map f t) = List.map f (List.filter p t).
Proof.
  intros Hp. induction t as [|x t IH]; simpl; [reflexivity|].
  rewrite Hp. destruct (p x); simpl; rewrite IH; reflexivity.
Qed.

Lemma is_user_upserted v now u a r x :
  is_user v (upserted now u a r x) = is_user v x.
Proof. unfold upserted. destruct (is_user u x); reflexivity. Qed.

Lemma existsb_select u (t : table) :
  existsb (is_user u) t = false <-> select_where_user_id u t = [].
Proof.
  unfold select_where_user_id. induction t as [|x t IH]; simpl; [tauto|].
  destruct (is_user u x); simpl; [split; discriminate | exact IH].
Qed.

Lemma select_app p (t1 t2 : table) :
  select_where_user_id p (t1 ++ t2) =
  select_where_user_id p t1 ++ select_where_user_id p t2.
Proof. unfold select_where_user_id. apply List.filter_app. Qed.

(** The row of the user after an upsert. *)
Lemma select_upsert_same now u a r (t : table) :
  unique_user_ids t ->
  select_where_user_id u (execute_upsert now u a r t) =
    match select_where_user_id u t with
    | [] => [inserted_row now u a r]
    | olds => List.map (fun x => set_updated_at now (do_update_set a r x)) olds
    end.
Proof.
  intros Hnd. rewrite execute_upsert_spec by assumption.
  destruct (existsb (is_user u) t) eqn:He.
  - unfold select_where_user_id.
    rewrite filter_map_commute by (intros; apply is_user_upserted).
    assert (Hne : List.filter (is_user u) t <> []).
    { intros Hnil. apply existsb_select in Hnil. congruence. }
    destruct (List.filter (is_user u) t) as [|x l] eqn:Hf; [congruence|].
    rewrite <- Hf. apply List.map_ext_in. intros y Hy.
    apply List.filter_In in Hy as [_ Hy]. unfold upserted. rewrite Hy. reflexivity.
  - rewrite select_app. apply existsb_select in He. rewrite He. simpl.
    unfold is_user. simpl. rewrite String.eqb_refl. reflexivity.
Qed.

(** The rows of the other users after an upsert. *)
Lemma select_upsert_other now u a r v (t : table) :
  unique_user_ids t -> v <> u ->
  select_where_user_id v (execute_upsert now u a r t) = select_where_user_id v t.
Proof.
  intros Hnd Hne. rewrite execute_upsert_spec by assumption.
  destruct (existsb (is_user u) t).
  - unfold select_where_user_id.
    rewrite filter_map_commute by (intros; apply is_user_upserted).
    rewrite <- (List.map_id (List.filter (is_user v) t)) at 2.
    apply List.map_ext_in. intros y Hy.
    apply List.filter_In in Hy as [_ Hy]. apply is_user_true in Hy.
    unfold upserted. replace (is_user u y) with false; [reflexivity|].
    symmetry. apply is_user_false. congruence.
  - rewrite select_app. simpl. unfold is_user. simpl.
    replace (String.eqb u v) with false; [apply List.app_nil_r|].
    symmetry. apply String.eqb_neq. congruence.
Qed.

Lemma user_ids_upserted now u a r (t : table) :
  List.map user_id (List.map (upserted now u a r) t) = List.map user_id t.
Proof.
  rewrite List.map_map. apply List.map_ext. intros x. unfold upserted.
  destruct (is_user u x); reflexivity.
Qed.

(** The upsert keeps the [UNIQUE] constraint. *)
Lemma execute_upsert_unique now u a r (t : table) :
  unique_user_ids t -> unique_user_ids (execute_upsert now u a r t).
Proof.
  intros Hnd. rewrite execute_upsert_spec by assumption.
  unfold unique_user_ids in *.
  destruct (existsb (is_user u) t) eqn:He.
  - rewrite user_ids_upserted. assumption.
  - rewrite List.map_app. simpl. apply NoDup_app. split; [assumption|].
    split; [|apply NoDup_singleton].
    intros x Hx Hx'. apply list_elem_of_singleton in Hx'. subst x.
    apply list_elem_of_In, List.in_map_iff in Hx as [y [Hy Hin]].
    assert (existsb (is_user u) t = true); [|congruence].
    apply existsb_exists. exists y. split; [assumption|]. now apply is_user_true.
Qed.

Lemma count_user_unique u (t : table) :
  unique_user_ids t -> count_user u t <= 1.
Proof.
  unfold unique_user_ids, count_user, select_where_user_id.
  induction t as [|x t IH]; simpl; intros Hnd; [lia|].
  destruct (is_user u x) eqn:Hx.
  - pose proof (existsb_absent_NoDup u x t Hnd Hx) as Habs.
    apply existsb_select in Habs. unfold select_where_user_id in Habs.
    rewrite Habs. simpl. lia.
  - apply NoDup_cons in Hnd as [_ Hnd]. auto.
Qed.

Lemma count_user_upsert now u a r (t : table) :
  unique_user_ids t -> count_user u (execute_upsert now u a r t) = 1.
Proof.
  intros Hnd.
  pose proof (count_user_unique u _ (execute_upsert_unique now u a r t Hnd)) as Hle.
  unfold count_user in *. rewrite select_upsert_same in * by assumption.
  destruct (select_where_user_id u t); simpl in *; lia.
Qed.

Lemma update_or_create_user_rows now u a r db :
  rows (update_or_create_user now u a r db) = execute_upsert now u a r (rows db).
Proof. reflexivity. Qed.

(** Every return of [update_or_create_user] leaves nothing uncommitted. *)
Lemma update_or_create_user_committed now u a r db :
  committed (update_or_create_user now u a r db)
  = rows (update_or_create_user now u a r db).
Proof. reflexivity. Qed.

(** ** Reading back after upserts *)

Lemma fetchone_upsert_same now u a r db :
  unique_user_ids (rows db) ->
  fetchone (select_where_user_id u (rows (update_or_create_user now u a r db))) =
    Some match fetchone (select_where_user_id u (rows db)) with
         | None => inserted_row now u a r
         | Some old => set_updated_at now (do_update_set a r old)
         end.
Proof.
  intros Hnd. rewrite update_or_create_user_rows, select_upsert_same by assumption.
  destruct (select_where_user_id u (rows db)); reflexivity.
Qed.

Lemma update_or_create_user_unique now u a r db :
  unique_user_ids (rows db) ->
  unique_user_ids (rows (update_or_create_user now u a r db)).
Proof. intros Hnd. apply execute_upsert_unique. assumption. Qed.

Lemma get_access_token_upsert now u a r db :
  unique_user_ids (rows db) ->
  get_access_token (update_or_create_user now u a r db) u = ok a.
Proof.
  intros Hnd. unfold get_access_token. rewrite fetchone_upsert_same by assumption.
  destruct (fetchone _); reflexivity.
Qed.

Lemma get_refresh_token_upsert now u a r db :
  unique_user_ids (rows db) ->
  get_refresh_token (update_or_create_user now u a r db) u = ok r.
Proof.
  intros Hnd. unfold get_refresh_token. rewrite fetchone_upsert_same by assumption.
  destruct (fetchone _); reflexivity.
Qed.

(** [updated_at] after any upsert is the time of that upsert. *)
Lemma get_updated_at_time_upsert now u a r db :
  unique_user_ids (rows db) ->
  get_updated_at_time (update_or_create_user now u a r db) u = ok now.
Proof.
  intros Hnd. unfold get_updated_at_time. rewrite fetchone_upsert_same by assumption.
  destruct (fetchone _); reflexivity.
Qed.

(** [created_at] after an upsert: the time of the upsert when it created
    the record, what it was when the record existed. *)
Lemma get_created_at_time_upsert now u a r db :
  unique_user_ids (rows db) ->
  get_created_at_time (update_or_create_user now u a r db) u =
    match fetchone (select_where_user_id u (rows db)) with
    | None => ok now
    | Some _ => get_created_at_time db u
    end.
Proof.
  intros Hnd. unfold get_created_at_time. rewrite fetchone_upsert_same by assumption.
  destruct (fetchone _); reflexivity.
Qed.

Lemma unique_empty_db : unique_user_ids (rows empty_db).
Proof. apply NoDup_nil_2. Qed.

Lemma unique_db_alice : unique_user_ids (rows Scenario.db_alice).
Proof. apply update_or_create_user_unique, unique_empty_db. Qed.

(** C4. Two upserts for one user, [(u, a1, r1)] at [now1] then
    [(u, a2, r2)] at [now2]: the tokens read back are [a2] and [r2];
    [created_at] is what it was after the first of the two, which is
    [now1] when that one created the record; the user has one record
    after each; and each upsert either adds the record of the user at
    the end of the table or rewrites that record, leaving its [user_id]
    and [created_at], and every other record, as they were. *)
Theorem upsert_twice_reads_latest
    (now1 now2 : Timestamp) (u : TwitchUserId) (a1 r1 a2 r2 : Token)
    (db : TwitchAuthDb) :
  unique_user_ids (rows db) ->
  let db1 := update_or_create_user now1 u a1 r1 db in
  let db2 := update_or_create_user now2 u a2 r2 db1 in
  get_access_token db2 u = ok a2 /\
  get_refresh_token db2 u = ok r2 /\
  get_created_at_time db2 u = get_created_at_time db1 u /\
  (get_access_token db u = raise UserNotFoundError ->
     get_created_at_time db2 u = ok now1) /\
  count_user u (rows db1) = 1 /\ count_user u (rows db2) = 1 /\
  (forall now a r (d : TwitchAuthDb), unique_user_ids (rows d) ->
     match fetchone (select_where_user_id u (rows d)) with
     | None =>
         rows (update_or_create_user now u a r d)
         = rows d ++ [inserted_row now u a r]
     | Some old =>
         rows (update_or_create_user now u a r d)
         = List.map (upserted now u a r) (rows d) /\
         on_conflict_do_update u a r (rows d)
         = Some (List.map (fun x => if is_user u x then do_update_set a r x else x)
                          (rows d),
                 old, do_update_set a r old) /\
         user_id (do_update_set a r old) = user_id old /\
         created_at (do_update_set a r old) = created_at old /\
         updated_at (do_update_set a r old) = updated_at old
     end /\
     forall v, v <> u ->
       select_where_user_id v (rows (update_or_create_user now u a r d))
       = select_where_user_id v (rows d)).
Proof.
  intros Hnd db1 db2.
  assert (Hnd1 : unique_user_ids (rows db1))
    by (apply update_or_create_user_unique; assumption).
  split; [apply get_access_token_upsert; assumption|].
  split; [apply get_refresh_token_upsert; assumption|].
  assert (Hc : get_created_at_time db2 u = get_created_at_time db1 u).
  { unfold db2. rewrite get_created_at_time_upsert by assumption.
    unfold db1 at 1. rewrite fetchone_upsert_same by assumption. reflexivity. }
  split; [exact Hc|].
  split.
  { intros Habsent. rewrite Hc. unfold db1.
    rewrite get_created_at_time_upsert by assumption.
    unfold get_access_token in Habsent.
    destruct (fetchone (select_where_user_id u (rows db))); [discriminate|reflexivity]. }
  split; [apply count_user_upsert; assumption|].
  split; [apply count_user_upsert; assumption|].
  intros now a r d Hd. split.
  - rewrite update_or_create_user_rows, execute_upsert_spec by assumption.
    destruct (existsb (is_user u) (rows d)) eqn:He.
    + destruct (on_conflict_present u a r (rows d) Hd He) as [old [Hin [Hold Heq]]].
      destruct (select_where_user_id u (rows d)) as [|x l] eqn:Hsel.
      { apply existsb_select in Hsel. congruence. }
      simpl. split; [reflexivity|].
      assert (Hx : x = old).
      { assert (Hxin : In x (select_where_user_id u (rows d)))
          by (rewrite Hsel; now left).
        apply List.filter_In in Hxin as [Hxin Hxu].
        pose proof (count_user_unique u (rows d) Hd) as Hcnt.
        unfold count_user in Hcnt. rewrite Hsel in Hcnt.
        assert (Hoin : In old (select_where_user_id u (rows d)))
          by (apply List.filter_In; split; assumption).
        rewrite Hsel in Hoin. destruct l; simpl in *; [|lia].
        destruct Hoin as [?|[]]. assumption. }
      subst x. rewrite Heq. repeat split; reflexivity.
    + apply existsb_select in He. rewrite He. reflexivity.
  - intros v Hv. rewrite update_or_create_user_rows.
    apply select_upsert_other; assumption.
Qed.

Lemma upsert_twice_reads_latest_witness :
  unique_user_ids (rows empty_db)
  /\ get_access_token
    (update_or_create_user 1700000060%Z Scenario.alice "access-2" "refresh-2"
       (update_or_create_user 1700000000%Z Scenario.alice "access-1" "refresh-1"
          empty_db)) Scenario.alice = ok "access-2"
  /\ get_created_at_time
    (update_or_create_user 1700000060%Z Scenario.alice "access-2" "refresh-2"
       (update_or_create_user 1700000000%Z Scenario.alice "access-1" "refresh-1"
          empty_db)) Scenario.alice = ok 1700000000%Z.
Proof.
  pose proof (upsert_twice_reads_latest 1700000000%Z 1700000060%Z Scenario.alice
                "access-1" "refresh-1" "access-2" "refresh-2" empty_db
                unique_empty_db) as H.
  cbv zeta in H. destruct H as [Ha [_ [_ [Hc _]]]].
  split; [exact unique_empty_db|]. split; [exact Ha|]. apply Hc. reflexivity.
Defined.

(** ** The audit timestamps *)

(** C5, as the document has it, fails: [CURRENT_TIMESTAMP] counts whole
    seconds, and a second upsert within the second of the first leaves
    [updated_at] where it was. *)
Lemma updated_at_same_second_not_later :
  ~ strictly_later
      (get_updated_at_time Scenario.db_alice Scenario.alice)
      (get_updated_at_time
         (update_or_create_user 1700000000%Z Scenario.alice "access-1" "refresh-1"
            Scenario.db_alice)
         Scenario.alice).
Proof. vm_compute. intros H. discriminate H. Qed.

(** C5, amended. Every upsert sets [updated_at] to the time of that
    upsert, read to the second: the one that creates the record sets
    [created_at] and [updated_at] both, a later one sets [updated_at]
    and leaves [created_at]; so across two successive upserts of a user
    [updated_at] goes from the time of the first to the time of the
    second, and is strictly later exactly when the second is at a later
    second than the first. *)
Theorem upsert_sets_updated_at_to_now
    (now1 now2 : Timestamp) (u : TwitchUserId) (a1 r1 a2 r2 : Token)
    (db : TwitchAuthDb) :
  unique_user_ids (rows db) ->
  let db1 := update_or_create_user now1 u a1 r1 db in
  let db2 := update_or_create_user now2 u a2 r2 db1 in
  get_updated_at_time db1 u = ok now1 /\
  get_updated_at_time db2 u = ok now2 /\
  (get_access_token db u = raise UserNotFoundError ->
     get_created_at_time db1 u = ok now1) /\
  get_created_at_time db2 u = get_created_at_time db1 u /\
  (strictly_later (get_updated_at_time db1 u) (get_updated_at_time db2 u)
   <-> (now1 < now2)%Z).
Proof.
  intros Hnd db1 db2.
  assert (Hnd1 : unique_user_ids (rows db1))
    by (apply update_or_create_user_unique; assumption).
  assert (H1 : get_updated_at_time db1 u = ok now1)
    by (apply get_updated_at_time_upsert; assumption).
  assert (H2 : get_updated_at_time db2 u = ok now2)
    by (apply get_updated_at_time_upsert; assumption).
  split; [exact H1|]. split; [exact H2|]. split; [|split].
  - intros Habsent. unfold db1.
    rewrite get_created_at_time_upsert by assumption.
    unfold get_access_token in Habsent.
    destruct (fetchone (select_where_user_id u (rows db))); [discriminate|reflexivity].
  - unfold db2. rewrite get_created_at_time_upsert by assumption.
    unfold db1 at 1. rewrite fetchone_upsert_same by assumption. reflexivity.
  - rewrite H1, H2. simpl. reflexivity.
Qed.

Lemma upsert_sets_updated_at_to_now_witness :
  unique_user_ids (rows empty_db)
  /\ get_updated_at_time
       (update_or_create_user 1700000060%Z Scenario.alice "access-2" "refresh-2"
          (update_or_create_user 1700000000%Z Scenario.alice "access-1" "refresh-1"
             empty_db)) Scenario.alice = ok 1700000060%Z.
Proof.
  split; [exact unique_empty_db|].
  exact (proj1 (proj2 (upsert_sets_updated_at_to_now 1700000000%Z 1700000060%Z
                         Scenario.alice "access-1" "refresh-1" "access-2" "refresh-2"
                         empty_db unique_empty_db))).
Defined.

(** ** Unknown users *)

Lemma unknown_user_getters db u :
  select_where_user_id u (rows db) = [] ->
  get_access_token db u = raise UserNotFoundError /\
  get_refresh_token db u = raise UserNotFoundError /\
  get_created_at_time db u = raise (TypeError CannotUnpackNone) /\
  get_updated_at_time db u = raise (TypeError CannotUnpackNone).
Proof.
  intros H. unfold get_access_token, get_refresh_token, get_created_at_time,
    get_updated_at_time. rewrite H. repeat split.
Qed.

(** C6. For a user without a record the two token getters raise
    [UserNotFoundError]; [get_created_at_time] has no test for the
    missing row and raises the [TypeError] of unpacking [None]. *)
Theorem get_created_at_time_unknown_user :
  get_access_token empty_db Scenario.alice = raise UserNotFoundError /\
  get_refresh_token empty_db Scenario.alice = raise UserNotFoundError /\
  get_created_at_time empty_db Scenario.alice = raise (TypeError CannotUnpackNone) /\
  get_created_at_time Scenario.db_alice Scenario.bob
  = raise (TypeError CannotUnpackNone).
Proof. repeat split. Qed.

(** ** The token provider *)

Lemma refresh_access_token_unknown_user refresh_auth_token now p w :
  get_refresh_token (authdb w) (_user_id p) = raise UserNotFoundError ->
  refresh_access_token refresh_auth_token now p w = (raise UserNotFoundError, w).
Proof.
  intros H. unfold refresh_access_token, mbind, read_db. rewrite H. reflexivity.
Qed.

Lemma refresh_access_token_known_user refresh_auth_token now p w rt :
  get_refresh_token (authdb w) (_user_id p) = ok rt ->
  refresh_access_token refresh_auth_token now p w =
    match refresh_auth_token rt with
    | inl e =>
        (raise e, {| authdb := authdb w; refresh_calls := refresh_calls w ++ [rt] |})
    | inr res =>
        (ok (new_access_token res),
         {| authdb := update_or_create_user now (_user_id p)
                        (new_access_token res) (new_refresh_token res) (authdb w);
            refresh_calls := refresh_calls w ++ [rt] |})
    end.
Proof.
  intros H. unfold refresh_access_token, mbind, read_db, call_refresh_auth_token.
  rewrite H. unfold ok at 1. cbv iota beta.
  destruct (refresh_auth_token rt); reflexivity.
Qed.

(** C1. For a user whose refresh token [rt] is in the store,
    [refresh_access_token] sends [rt], and nothing else, to the refresh
    endpoint. When the endpoint returns a pair, the store it leaves is
    the one [update_or_create_user] makes of that pair, committed, both
    tokens read back from it, and the access token of the pair is
    returned. When the endpoint raises, the same exception is raised and
    the store is the one it was. *)
Theorem refresh_access_token_persists_or_leaves
    (refresh_auth_token : Token -> result RefreshResult)
    (now : Timestamp) (p : TwitchAuthDbUserTokenProvider) (w : world) (rt : Token) :
  unique_user_ids (rows (authdb w)) ->
  get_refresh_token (authdb w) (_user_id p) = ok rt ->
  let out := refresh_access_token refresh_auth_token now p w in
  refresh_calls (snd out) = refresh_calls w ++ [rt] /\
  match refresh_auth_token rt with
  | inr res =>
      fst out = ok (new_access_token res) /\
      authdb (snd out)
      = update_or_create_user now (_user_id p)
          (new_access_token res) (new_refresh_token res) (authdb w) /\
      get_access_token (authdb (snd out)) (_user_id p) = ok (new_access_token res) /\
      get_refresh_token (authdb (snd out)) (_user_id p) = ok (new_refresh_token res) /\
      committed (authdb (snd out)) = rows (authdb (snd out))
  | inl e =>
      fst out = raise e /\ authdb (snd out) = authdb w
  end.
Proof.
  intros Hnd Hrt out. subst out.
  rewrite (refresh_access_token_known_user _ _ _ _ _ Hrt).
  destruct (refresh_auth_token rt) as [e|res]; simpl.
  - repeat split.
  - split; [reflexivity|]. split; [reflexivity|]. split; [reflexivity|].
    split; [apply get_access_token_upsert; assumption|].
    split; [apply get_refresh_token_upsert; assumption|reflexivity].
Qed.

Lemma refresh_access_token_persists_or_leaves_witness :
  (unique_user_ids (rows (authdb Scenario.world_alice)) /\
   get_refresh_token (authdb Scenario.world_alice) Scenario.alice = ok "refresh-0")
  /\ fst (refresh_access_token Scenario.refresh_rotates 1700000060%Z
            (Provider Scenario.alice) Scenario.world_alice) = ok "access-1"
  /\ authdb (snd (refresh_access_token Scenario.refresh_rejects 1700000060%Z
                    (Provider Scenario.alice) Scenario.world_alice))
     = Scenario.db_alice.
Proof.
  split; [split; [exact unique_db_alice | reflexivity]|].
  split.
  - exact (proj1 (proj2 (refresh_access_token_persists_or_leaves
             Scenario.refresh_rotates 1700000060%Z (Provider Scenario.alice)
             Scenario.world_alice "refresh-0" unique_db_alice eq_refl))).
  - exact (proj2 (proj2 (refresh_access_token_persists_or_leaves
             Scenario.refresh_rejects 1700000060%Z (Provider Scenario.alice)
             Scenario.world_alice "refresh-0" unique_db_alice eq_refl))).
Defined.

(** ** Other users, repeated calls, and the list of users *)

Lemma upsert_leaves_other_users_frame now u v a r db :
  unique_user_ids (rows db) -> v <> u ->
  get_created_at_time (update_or_create_user now u a r db) v
  = get_created_at_time db v.
Proof.
  intros Hnd Hne. unfold get_created_at_time.
  rewrite update_or_create_user_rows, select_upsert_other by assumption. reflexivity.
Qed.

(** An upsert for one user leaves what the four getters return for every
    other user. *)
Theorem upsert_leaves_other_users
    (now : Timestamp) (u v : TwitchUserId) (a r : Token) (db : TwitchAuthDb) :
  unique_user_ids (rows db) -> v <> u ->
  let db' := update_or_create_user now u a r db in
  get_access_token db' v = get_access_token db v /\
  get_refresh_token db' v = get_refresh_token db v /\
  get_created_at_time db' v = get_created_at_time db v /\
  get_updated_at_time db' v = get_updated_at_time db v.
Proof.
  intros Hnd Hne db'.
  assert (Hsel : select_where_user_id v (rows db') = select_where_user_id v (rows db))
    by (apply select_upsert_other; assumption).
  unfold get_access_token, get_refresh_token, get_created_at_time, get_updated_at_time.
  rewrite Hsel. repeat split.
Qed.

Lemma upsert_leaves_other_users_witness :
  (unique_user_ids (rows Scenario.db_alice) /\ Scenario.alice <> Scenario.bob)
  /\ get_access_token
       (update_or_create_user 1700000060%Z Scenario.bob "b-access" "b-refresh"
          Scenario.db_alice) Scenario.alice
     = get_access_token Scenario.db_alice Scenario.alice.
Proof.
  assert (Hne : Scenario.alice <> Scenario.bob) by discriminate.
  split; [split; [exact unique_db_alice | exact Hne]|].
  exact (proj1 (upsert_leaves_other_users 1700000060%Z Scenario.bob Scenario.alice
                  "b-access" "b-refresh" Scenario.db_alice unique_db_alice Hne)).
Defined.

Lemma upserted_idempotent now u a r x :
  upserted now u a r (upserted now u a r x) = upserted now u a r x.
Proof.
  unfold upserted. destruct (is_user u x) eqn:Hx.
  - rewrite is_user_set_updated_at, is_user_do_update_set, Hx. reflexivity.
  - rewrite Hx. reflexivity.
Qed.

Lemma existsb_is_user_upserted now u a r v (t : table) :
  existsb (is_user v) (List.map (upserted now u a r) t) = existsb (is_user v) t.
Proof.
  induction t as [|x t IH]; simpl; [reflexivity|].
  rewrite is_user_upserted, IH. reflexivity.
Qed.

(** The same upsert made again while the clock reads the same second
    changes nothing: not the rows, and not what is committed. *)
Theorem upsert_again_same_second
    (now : Timestamp) (u : TwitchUserId) (a r : Token) (db : TwitchAuthDb) :
  unique_user_ids (rows db) ->
  update_or_create_user now u a r (update_or_create_user now u a r db)
  = update_or_create_user now u a r db.
Proof.
  intros Hnd.
  assert (Hrows : execute_upsert now u a r (execute_upsert now u a r (rows db))
                  = execute_upsert now u a r (rows db)).
  { rewrite (execute_upsert_spec now u a r (execute_upsert now u a r (rows db)))
      by (apply execute_upsert_unique; assumption).
    rewrite (execute_upsert_spec now u a r (rows db)) by assumption.
    destruct (existsb (is_user u) (rows db)) eqn:He.
    - rewrite existsb_is_user_upserted, He, List.map_map.
      apply List.map_ext. intros x. apply upserted_idempotent.
    - rewrite existsb_app, He. simpl. unfold is_user at 1. simpl.
      rewrite String.eqb_refl. simpl. rewrite List.map_app. f_equal.
      + apply (map_id_absent _ u); [|assumption].
        intros x Hx. unfold upserted. rewrite Hx. reflexivity.
      + simpl. unfold upserted, is_user. simpl. rewrite String.eqb_refl. reflexivity. }
  unfold update_or_create_user, commit. simpl. rewrite Hrows. reflexivity.
Qed.

Lemma upsert_again_same_second_witness :
  unique_user_ids (rows Scenario.db_alice)
  /\ update_or_create_user 1700000060%Z Scenario.alice "access-1" "refresh-1"
       (update_or_create_user 1700000060%Z Scenario.alice "access-1" "refresh-1"
          Scenario.db_alice)
     = update_or_create_user 1700000060%Z Scenario.alice "access-1" "refresh-1"
         Scenario.db_alice.
Proof.
  split; [exact unique_db_alice|].
  exact (upsert_again_same_second 1700000060%Z Scenario.alice "access-1" "refresh-1"
           Scenario.db_alice unique_db_alice).
Defined.

Lemma index_insert_perm u ids : Permutation (index_insert u ids) (u :: ids).
Proof.
  induction ids as [|x ids IH]; simpl; [reflexivity|].
  destruct (String.leb u x); [reflexivity|].
  rewrite IH. apply perm_swap.
Qed.

Lemma index_order_perm ids : Permutation (index_order ids) ids.
Proof.
  induction ids as [|x ids IH]; simpl; [reflexivity|].
  rewrite index_insert_perm, IH. reflexivity.
Qed.

Lemma index_insert_sorted u ids :
  in_index_order ids -> in_index_order (index_insert u ids).
Proof.
  unfold in_index_order. induction ids as [|x ids IH]; simpl; intros Hs.
  - repeat constructor.
  - destruct (String.leb u x) eqn:Hux.
    + constructor; [assumption|]. constructor. exact Hux.
    + apply Sorted_inv in Hs as [Hs Hhd]. constructor; [auto|].
      assert (Hxu : index_le x u).
      { destruct (String.leb_total u x) as [H|H]; [congruence|exact H]. }
      destruct ids as [|y ids]; simpl; [constructor; exact Hxu|].
      destruct (String.leb u y); constructor; [exact Hxu|].
      apply HdRel_inv in Hhd. exact Hhd.
Qed.

Lemma index_order_sorted ids : in_index_order (index_order ids).
Proof.
  induction ids as [|x ids IH]; simpl; [constructor|].
  apply index_insert_sorted. exact IH.
Qed.

Lemma In_select_user_ids u (t : table) :
  In u (select_user_ids t) <-> In u (List.map user_id t).
Proof.
  unfold select_user_ids. split; apply Permutation_in;
    [|symmetry]; apply index_order_perm.
Qed.

Lemma NoDup_select_user_ids (t : table) :
  unique_user_ids t -> NoDup (select_user_ids t).
Proof.
  unfold unique_user_ids, select_user_ids. intros H.
  rewrite index_order_perm. assumption.
Qed.

Lemma existsb_is_user_In u (t : table) :
  existsb (is_user u) t = true <-> In u (List.map user_id t).
Proof.
  rewrite existsb_exists, List.in_map_iff. split.
  - intros [x [Hin Hx]]. exists x. split; [now apply is_user_true|assumption].
  - intros [x [Hx Hin]]. exists x. split; [assumption|now apply is_user_true].
Qed.

Lemma existsb_is_user_listed u (t : table) :
  existsb (is_user u) t = true <-> In u (select_user_ids t).
Proof. rewrite In_select_user_ids. apply existsb_is_user_In. Qed.

(** [get_all_user_ids_slow] lists a user exactly when the token getters
    find the user: a listed user has tokens, an unlisted one raises
    [UserNotFoundError]. *)
Theorem listed_iff_tokens_found (db : TwitchAuthDb) (u : TwitchUserId) :
  (In u (get_all_user_ids_slow db) <->
     exists a r, get_access_token db u = ok a /\ get_refresh_token db u = ok r) /\
  (~ In u (get_all_user_ids_slow db) <->
     get_access_token db u = raise UserNotFoundError /\
     get_refresh_token db u = raise UserNotFoundError).
Proof.
  unfold get_all_user_ids_slow, get_access_token, get_refresh_token.
  rewrite <- existsb_is_user_listed.
  destruct (existsb (is_user u) (rows db)) eqn:He.
  - destruct (select_where_user_id u (rows db)) as [|x l] eqn:Hsel.
    { apply existsb_select in Hsel. congruence. }
    simpl. split; split.
    + intros _. exists (access_token x), (refresh_token x). split; reflexivity.
    + reflexivity.
    + intros H. exfalso. apply H. reflexivity.
    + intros [H _]. discriminate H.
  - apply existsb_select in He. rewrite He. simpl. split; split.
    + discriminate.
    + intros [a [r [H _]]]. discriminate H.
    + intros _. split; reflexivity.
    + intros _. discriminate.
Qed.

Lemma user_ids_upsert_perm now u a r db :
  unique_user_ids (rows db) ->
  Permutation (get_all_user_ids_slow (update_or_create_user now u a r db))
    (if existsb (is_user u) (rows db)
     then get_all_user_ids_slow db
     else u :: get_all_user_ids_slow db).
Proof.
  intros Hnd. unfold get_all_user_ids_slow, select_user_ids.
  rewrite update_or_create_user_rows, execute_upsert_spec by assumption.
  destruct (existsb (is_user u) (rows db)).
  - rewrite user_ids_upserted. reflexivity.
  - rewrite !index_order_perm, List.map_app. simpl.
    symmetry. apply Permutation_cons_append.
Qed.

Lemma user_ids_upsert_known now u a r db :
  unique_user_ids (rows db) -> existsb (is_user u) (rows db) = true ->
  get_all_user_ids_slow (update_or_create_user now u a r db)
  = get_all_user_ids_slow db.
Proof.
  intros Hnd He. unfold get_all_user_ids_slow, select_user_ids.
  rewrite update_or_create_user_rows, execute_upsert_spec, He by assumption.
  rewrite user_ids_upserted. reflexivity.
Qed.

Lemma listed_after_upsert now u a r db v :
  unique_user_ids (rows db) ->
  In v (get_all_user_ids_slow (update_or_create_user now u a r db)) <->
  v = u \/ In v (get_all_user_ids_slow db).
Proof.
  intros Hnd. pose proof (user_ids_upsert_perm now u a r db Hnd) as Hp.
  destruct (existsb (is_user u) (rows db)) eqn:He.
  - apply existsb_is_user_listed in He. split.
    + intros H. right. eapply Permutation_in; eassumption.
    + intros [->|H]; (eapply Permutation_in; [symmetry; exact Hp|]); assumption.
  - split.
    + intros H. apply (Permutation_in _ Hp) in H. destruct H as [<-|H]; auto.
    + intros H. apply (Permutation_in _ (Permutation_sym Hp)).
      destruct H as [->|H]; [now left|now right].
Qed.

(** After an upsert the list of users is the list before when the user
    was in it, and the list before with the user added when not; it has
    the user, has no user twice, and is in the order of the index on
    [user_id], whatever the order in which the users were inserted. *)
Theorem user_ids_after_upsert
    (now : Timestamp) (u : TwitchUserId) (a r : Token) (db : TwitchAuthDb) :
  unique_user_ids (rows db) ->
  let db' := update_or_create_user now u a r db in
  (In u (get_all_user_ids_slow db) ->
     get_all_user_ids_slow db' = get_all_user_ids_slow db) /\
  (~ In u (get_all_user_ids_slow db) ->
     Permutation (get_all_user_ids_slow db') (u :: get_all_user_ids_slow db)) /\
  NoDup (get_all_user_ids_slow db') /\
  In u (get_all_user_ids_slow db') /\
  in_index_order (get_all_user_ids_slow db').
Proof.
  intros Hnd db'. split; [|split; [|split; [|split]]].
  - intros Hin. apply existsb_is_user_listed in Hin.
    apply user_ids_upsert_known; assumption.
  - intros Hnin. pose proof (user_ids_upsert_perm now u a r db Hnd) as Hp.
    destruct (existsb (is_user u) (rows db)) eqn:He; [|exact Hp].
    exfalso. apply Hnin. apply existsb_is_user_listed. assumption.
  - apply NoDup_select_user_ids. apply (update_or_create_user_unique now u a r db Hnd).
  - apply listed_after_upsert; [assumption|now left].
  - apply index_order_sorted.
Qed.

Lemma user_ids_after_upsert_witness :
  unique_user_ids (rows Scenario.db_alice)
  /\ get_all_user_ids_slow
       (update_or_create_user 1700000060%Z Scenario.bob "b-access" "b-refresh"
          Scenario.db_alice)
     = [Scenario.bob; Scenario.alice]
  /\ in_index_order
       (get_all_user_ids_slow
          (update_or_create_user 1700000060%Z Scenario.bob "b-access" "b-refresh"
             Scenario.db_alice)).
Proof.
  split; [exact unique_db_alice|]. split; [vm_compute; reflexivity|].
  exact (proj2 (proj2 (proj2 (proj2
           (user_ids_after_upsert 1700000060%Z Scenario.bob
              "b-access" "b-refresh" Scenario.db_alice unique_db_alice))))).
Defined.

(** ** Histories *)

Lemma apply_upserts_app calls1 calls2 db :
  apply_upserts (calls1 ++ calls2) db = apply_upserts calls2 (apply_upserts calls1 db).
Proof.
  revert db. induction calls1 as [|c calls1 IH]; simpl; intros db; [reflexivity|].
  apply IH.
Qed.

Lemma apply_upserts_unique calls db :
  unique_user_ids (rows db) -> unique_user_ids (rows (apply_upserts calls db)).
Proof.
  revert db. induction calls as [|c calls IH]; simpl; intros db Hnd; [assumption|].
  apply IH. apply update_or_create_user_unique. assumption.
Qed.

Lemma apply_upserts_committed calls db :
  committed db = rows db ->
  committed (apply_upserts calls db) = rows (apply_upserts calls db).
Proof.
  revert db. induction calls as [|c calls IH]; simpl; intros db H; [assumption|].
  apply IH. reflexivity.
Qed.

Lemma user_ids_apply_upserts calls db u :
  unique_user_ids (rows db) ->
  In u (get_all_user_ids_slow (apply_upserts calls db)) <->
  In u (get_all_user_ids_slow db) \/ In u (List.map for_user calls).
Proof.
  revert db. induction calls as [|c calls IH]; simpl; intros db Hnd; [tauto|].
  rewrite IH by (apply update_or_create_user_unique; assumption).
  unfold call_upsert. rewrite listed_after_upsert by assumption.
  split; [intros [[->|H]|H]; auto | intros [H|[<-|H]]; auto].
Qed.

(** Every row of the table has both its timestamps. *)
Lemma timestamps_kept now u a r (t : table) :
  unique_user_ids t ->
  (forall x, In x t -> created_at x <> None /\ updated_at x <> None) ->
  forall x, In x (execute_upsert now u a r t) ->
    created_at x <> None /\ updated_at x <> None.
Proof.
  intros Hnd Hall x. rewrite execute_upsert_spec by assumption.
  destruct (existsb (is_user u) t).
  - intros Hx. apply List.in_map_iff in Hx as [y [<- Hy]].
    destruct (Hall y Hy) as [Hc Hu]. unfold upserted.
    destruct (is_user u y); simpl; [split; [assumption|discriminate]|tauto].
  - intros Hx. apply List.in_app_iff in Hx as [Hx|[<-|[]]]; [auto|].
    simpl. split; discriminate.
Qed.

Lemma apply_upserts_timestamps calls db :
  unique_user_ids (rows db) ->
  (forall x, In x (rows db) -> created_at x <> None /\ updated_at x <> None) ->
  forall x, In x (rows (apply_upserts calls db)) ->
    created_at x <> None /\ updated_at x <> None.
Proof.
  revert db. induction calls as [|c calls IH]; simpl; intros db Hnd Hall; [assumption|].
  apply IH; [apply update_or_create_user_unique; assumption|].
  apply timestamps_kept; assumption.
Qed.

(** A store that starts empty, after any calls of [update_or_create_user]:
    no user has two records, nothing is left uncommitted, the users listed
    are the users of the calls, and for each of them the four getters
    return a value. *)
Theorem store_after_any_upserts (calls : list upsert_call) :
  let db := apply_upserts calls empty_db in
  NoDup (get_all_user_ids_slow db) /\
  committed db = rows db /\
  (forall u, In u (get_all_user_ids_slow db) <-> In u (List.map for_user calls)) /\
  (forall u, In u (List.map for_user calls) ->
     exists a r c t,
       get_access_token db u = ok a /\ get_refresh_token db u = ok r /\
       get_created_at_time db u = ok c /\ get_updated_at_time db u = ok t) /\
  (forall u, ~ In u (List.map for_user calls) ->
     get_access_token db u = raise UserNotFoundError).
Proof.
  intros db.
  assert (Hnd : unique_user_ids (rows db))
    by (apply apply_upserts_unique, unique_empty_db).
  assert (Hids : forall u,
             In u (get_all_user_ids_slow db) <-> In u (List.map for_user calls)).
  { intros u. unfold db. rewrite user_ids_apply_upserts by apply unique_empty_db.
    simpl. tauto. }
  split; [apply NoDup_select_user_ids; exact Hnd|].
  split; [apply apply_upserts_committed; reflexivity|].
  split; [exact Hids|]. split.
  - intros u Hu. apply Hids in Hu.
    apply existsb_is_user_listed in Hu.
    unfold get_access_token, get_refresh_token, get_created_at_time,
      get_updated_at_time.
    destruct (select_where_user_id u (rows db)) as [|x l] eqn:Hsel.
    { apply existsb_select in Hsel. congruence. }
    assert (Hx : In x (rows db)).
    { assert (Hx : In x (select_where_user_id u (rows db)))
        by (rewrite Hsel; now left).
      apply List.filter_In in Hx. tauto. }
    destruct (apply_upserts_timestamps calls empty_db unique_empty_db
                (fun y (Hy : In y []) => match Hy with end) x Hx) as [Hc Ht].
    simpl. destruct (created_at x) as [c|]; [|congruence].
    destruct (updated_at x) as [t|]; [|congruence].
    exists (access_token x), (refresh_token x), (fromisoformat_Z c), (fromisoformat_Z t).
    repeat split.
  - intros u Hu. rewrite <- Hids in Hu.
    unfold get_all_user_ids_slow in Hu.
    rewrite <- existsb_is_user_listed in Hu. apply not_true_is_false in Hu.
    apply existsb_select in Hu. unfold get_access_token. rewrite Hu. reflexivity.
Qed.

Lemma row_times_upsert now bound u a r (t : table) :
  unique_user_ids t -> (bound <= now)%Z ->
  (forall x, In x t -> row_times_within bound x) ->
  forall x, In x (execute_upsert now u a r t) -> row_times_within now x.
Proof.
  intros Hnd Hle Hall x. rewrite execute_upsert_spec by assumption.
  destruct (existsb (is_user u) t).
  - intros Hx. apply List.in_map_iff in Hx as [y [<- Hy]].
    specialize (Hall y Hy). unfold row_times_within, upserted in *.
    destruct (is_user u y); simpl;
      destruct (created_at y) as [c|]; try contradiction;
      destruct (updated_at y) as [v|]; try contradiction; lia.
  - intros Hx. apply List.in_app_iff in Hx as [Hx|[<-|[]]].
    + specialize (Hall x Hx). unfold row_times_within in *.
      destruct (created_at x) as [c|]; try contradiction;
      destruct (updated_at x) as [v|]; try contradiction; lia.
    + unfold row_times_within. simpl. lia.
Qed.

(** While the clock does not run backwards, every record has
    [created_at <= updated_at], and no record is stamped later than the
    last call. *)
Theorem created_at_not_after_updated_at
    (start : Timestamp) (calls : list upsert_call) (db : TwitchAuthDb) :
  unique_user_ids (rows db) ->
  (forall x, In x (rows db) -> row_times_within start x) ->
  clock_from start calls ->
  forall x, In x (rows (apply_upserts calls db)) ->
    row_times_within (last_time start calls) x.
Proof.
  revert start db. induction calls as [|c calls IH]; simpl;
    intros start db Hnd Hall Hclock; [assumption|].
  destruct Hclock as [Hle Hclock].
  apply IH; [apply update_or_create_user_unique; assumption| |assumption].
  unfold call_upsert. rewrite update_or_create_user_rows.
  apply (row_times_upsert _ start); assumption.
Qed.

Lemma created_at_not_after_updated_at_witness :
  (unique_user_ids (rows empty_db) /\
   clock_from 0%Z [Upsert 1700000000%Z Scenario.alice "a1" "r1";
                   Upsert 1700000000%Z Scenario.bob "b1" "s1";
                   Upsert 1700000060%Z Scenario.alice "a2" "r2"])
  /\ forall x,
       In x (rows (apply_upserts
                     [Upsert 1700000000%Z Scenario.alice "a1" "r1";
                      Upsert 1700000000%Z Scenario.bob "b1" "s1";
                      Upsert 1700000060%Z Scenario.alice "a2" "r2"] empty_db)) ->
       row_times_within 1700000060%Z x.
Proof.
  assert (Hclock : clock_from 0%Z [Upsert 1700000000%Z Scenario.alice "a1" "r1";
                                   Upsert 1700000000%Z Scenario.bob "b1" "s1";
                                   Upsert 1700000060%Z Scenario.alice "a2" "r2"])
    by (simpl; lia).
  split; [split; [exact unique_empty_db | exact Hclock]|].
  exact (created_at_not_after_updated_at 0%Z _ empty_db unique_empty_db
           (fun y (Hy : In y []) => match Hy with end) Hclock).
Defined.

Lemma get_created_at_time_found db u t :
  get_created_at_time db u = ok t ->
  exists x, fetchone (select_where_user_id u (rows db)) = Some x.
Proof.
  unfold get_created_at_time.
  destruct (fetchone (select_where_user_id u (rows db))) as [x|]; [eauto|discriminate].
Qed.

(** Once a user has a record, no later call of [update_or_create_user],
    for that user or another, removes it or changes its [created_at]. *)
Theorem created_at_is_kept
    (calls : list upsert_call) (db : TwitchAuthDb) (u : TwitchUserId) (t : Time) :
  unique_user_ids (rows db) ->
  get_created_at_time db u = ok t ->
  get_created_at_time (apply_upserts calls db) u = ok t /\
  In u (get_all_user_ids_slow (apply_upserts calls db)).
Proof.
  revert db. induction calls as [|c calls IH]; simpl; intros db Hnd Hget.
  - split; [assumption|].
    destruct (get_created_at_time_found db u t Hget) as [x Hx].
    unfold get_all_user_ids_slow. apply existsb_is_user_listed.
    destruct (existsb (is_user u) (rows db)) eqn:He; [reflexivity|].
    apply existsb_select in He. rewrite He in Hx. discriminate.
  - apply IH; [apply update_or_create_user_unique; assumption|].
    unfold call_upsert. destruct (String.string_dec u (for_user c)) as [<-|Hne].
    + rewrite get_created_at_time_upsert by assumption.
      destruct (get_created_at_time_found db u t Hget) as [x ->]. assumption.
    + rewrite <- Hget.
      apply (upsert_leaves_other_users_frame (at_time c) (for_user c) u); assumption.
Qed.

Lemma created_at_is_kept_witness :
  (unique_user_ids (rows Scenario.db_alice) /\
   get_created_at_time Scenario.db_alice Scenario.alice = ok 1700000000%Z)
  /\ get_created_at_time
       (apply_upserts [Upsert 1700000060%Z Scenario.bob "b1" "s1";
                       Upsert 1700000120%Z Scenario.alice "a2" "r2"]
          Scenario.db_alice) Scenario.alice = ok 1700000000%Z.
Proof.
  split; [split; [exact unique_db_alice | reflexivity]|].
  exact (proj1 (created_at_is_kept
                  [Upsert 1700000060%Z Scenario.bob "b1" "s1";
                   Upsert 1700000120%Z Scenario.alice "a2" "r2"]
                  Scenario.db_alice Scenario.alice 1700000000%Z
                  unique_db_alice eq_refl)).
Defined.

Lemma getters_apply_upserts_other calls db u :
  unique_user_ids (rows db) ->
  (forall c, In c calls -> for_user c <> u) ->
  select_where_user_id u (rows (apply_upserts calls db))
  = select_where_user_id u (rows db).
Proof.
  revert db. induction calls as [|c calls IH]; simpl; intros db Hnd Hother;
    [reflexivity|].
  rewrite IH; [|apply update_or_create_user_unique; assumption|auto].
  unfold call_upsert. rewrite update_or_create_user_rows.
  apply select_upsert_other; [assumption|].
  intros ->. apply (Hother c); [now left|reflexivity].
Qed.

(** The last call for a user decides what is read back: after any calls,
    the tokens of a user are those of the last call made for that user,
    and [updated_at] is the time of that call. *)
Theorem last_upsert_wins
    (before after : list upsert_call) (c : upsert_call) (db : TwitchAuthDb) :
  unique_user_ids (rows db) ->
  (forall c', In c' after -> for_user c' <> for_user c) ->
  let db' := apply_upserts (before ++ c :: after) db in
  get_access_token db' (for_user c) = ok (with_access c) /\
  get_refresh_token db' (for_user c) = ok (with_refresh c) /\
  get_updated_at_time db' (for_user c) = ok (at_time c).
Proof.
  intros Hnd Hafter db'. unfold db'. rewrite apply_upserts_app. simpl.
  set (db1 := apply_upserts before db).
  assert (Hnd1 : unique_user_ids (rows db1)) by (apply apply_upserts_unique; assumption).
  assert (Hsel : select_where_user_id (for_user c)
                   (rows (apply_upserts after (call_upsert c db1)))
                 = select_where_user_id (for_user c) (rows (call_upsert c db1))).
  { apply getters_apply_upserts_other; [|assumption].
    apply update_or_create_user_unique. assumption. }
  pose proof (get_access_token_upsert (at_time c) (for_user c) (with_access c)
                (with_refresh c) db1 Hnd1) as Ha.
  pose proof (get_refresh_token_upsert (at_time c) (for_user c) (with_access c)
                (with_refresh c) db1 Hnd1) as Hr.
  pose proof (get_updated_at_time_upsert (at_time c) (for_user c) (with_access c)
                (with_refresh c) db1 Hnd1) as Ht.
  unfold get_access_token, get_refresh_token, get_updated_at_time in *.
  rewrite Hsel. unfold call_upsert. auto.
Qed.

Lemma last_upsert_wins_witness :
  (unique_user_ids (rows empty_db) /\
   forall c', In c' [Upsert 1700000120%Z Scenario.bob "b1" "s1"] ->
              for_user c' <> Scenario.alice)
  /\ get_access_token
       (apply_upserts
          ([Upsert 1700000000%Z Scenario.alice "a1" "r1"]
           ++ Upsert 1700000060%Z Scenario.alice "a2" "r2"
              :: [Upsert 1700000120%Z Scenario.bob "b1" "s1"]) empty_db)
       Scenario.alice = ok "a2".
Proof.
  assert (Hafter : forall c', In c' [Upsert 1700000120%Z Scenario.bob "b1" "s1"] ->
                              for_user c' <> Scenario.alice).
  { intros c' [<-|[]]. discriminate. }
  split; [split; [exact unique_empty_db | exact Hafter]|].
  exact (proj1 (last_upsert_wins [Upsert 1700000000%Z Scenario.alice "a1" "r1"]
                  [Upsert 1700000120%Z Scenario.bob "b1" "s1"]
                  (Upsert 1700000060%Z Scenario.alice "a2" "r2")
                  empty_db unique_empty_db Hafter)).
Defined.

(** ** The provider, continued *)

(** After a refresh that succeeded, the provider's [get_access_token]
    returns the access token the refresh returned; it calls no endpoint
    and leaves the store as it is. *)
Theorem get_access_token_after_refresh
    (refresh_auth_token : Token -> result RefreshResult)
    (now : Timestamp) (p : TwitchAuthDbUserTokenProvider) (w : world)
    (rt : Token) (res : RefreshResult) :
  unique_user_ids (rows (authdb w)) ->
  get_refresh_token (authdb w) (_user_id p) = ok rt ->
  refresh_auth_token rt = ok res ->
  let w' := snd (refresh_access_token refresh_auth_token now p w) in
  provider_get_access_token p w' = (ok (new_access_token res), w') /\
  fst (refresh_access_token refresh_auth_token now p w)
  = fst (provider_get_access_token p w').
Proof.
  intros Hnd Hrt Hres w'. subst w'.
  rewrite (refresh_access_token_known_user _ _ _ _ _ Hrt), Hres.
  unfold ok at 1. cbv iota beta. simpl.
  unfold provider_get_access_token, read_db. simpl.
  rewrite get_access_token_upsert by assumption. split; reflexivity.
Qed.

Lemma get_access_token_after_refresh_witness :
  (unique_user_ids (rows (authdb Scenario.world_alice)) /\
   get_refresh_token (authdb Scenario.world_alice) Scenario.alice = ok "refresh-0" /\
   Scenario.refresh_rotates "refresh-0"
   = ok {| new_access_token := "access-1"; new_refresh_token := "refresh-1" |})
  /\ fst (provider_get_access_token (Provider Scenario.alice)
            (snd (refresh_access_token Scenario.refresh_rotates 1700000060%Z
                    (Provider Scenario.alice) Scenario.world_alice)))
     = ok "access-1".
Proof.
  split; [split; [exact unique_db_alice | split; reflexivity]|].
  rewrite (proj1 (get_access_token_after_refresh Scenario.refresh_rotates
                    1700000060%Z (Provider Scenario.alice) Scenario.world_alice
                    "refresh-0" _ unique_db_alice eq_refl eq_refl)).
  reflexivity.
Defined.

(** A refresh for a user without a record raises [UserNotFoundError]
    before the endpoint is called: no refresh token is sent and the store
    is as it was; and so is it after a second attempt. *)
Theorem refresh_unknown_user_calls_nothing
    (refresh_auth_token : Token -> result RefreshResult)
    (now now' : Timestamp) (p : TwitchAuthDbUserTokenProvider) (w : world) :
  ~ In (_user_id p) (get_all_user_ids_slow (authdb w)) ->
  refresh_access_token refresh_auth_token now p w = (raise UserNotFoundError, w) /\
  refresh_access_token refresh_auth_token now' p
    (snd (refresh_access_token refresh_auth_token now p w))
  = (raise UserNotFoundError, w).
Proof.
  intros Hnin.
  assert (Hget : get_refresh_token (authdb w) (_user_id p) = raise UserNotFoundError).
  { unfold get_all_user_ids_slow in Hnin.
    rewrite <- existsb_is_user_listed in Hnin. apply not_true_is_false in Hnin.
    apply existsb_select in Hnin. unfold get_refresh_token. rewrite Hnin. reflexivity. }
  rewrite (refresh_access_token_unknown_user _ now _ _ Hget). cbn [snd].
  rewrite (refresh_access_token_unknown_user _ now' _ _ Hget). split; reflexivity.
Qed.

Lemma refresh_unknown_user_calls_nothing_witness :
  ~ In Scenario.bob (get_all_user_ids_slow (authdb Scenario.world_alice))
  /\ refresh_access_token Scenario.refresh_rotates 1700000060%Z
       (Provider Scenario.bob) Scenario.world_alice
     = (raise UserNotFoundError, Scenario.world_alice).
Proof.
  assert (Hnin : ~ In Scenario.bob (get_all_user_ids_slow (authdb Scenario.world_alice))).
  { vm_compute. intros [H|[]]. discriminate H. }
  split; [exact Hnin|].
  exact (proj1 (refresh_unknown_user_calls_nothing Scenario.refresh_rotates
                  1700000060%Z 1700000060%Z (Provider Scenario.bob)
                  Scenario.world_alice Hnin)).
Defined.

End AuthDbFacts.

(* ===================================================================== *)
(** * The connection thread                                                *)
(* ===================================================================== *)

Module EventSubFacts.

Import EventSub.

Section Steps.

Variable json_loads : string -> result json.
Variable api : list json -> json -> option exn.

#[local] Abbreviation thread_step := (EventSub.thread_step json_loads api).
#[local] Abbreviation sys_step := (EventSub.sys_step json_loads api).
#[local] Abbreviation step := (EventSub.step json_loads api).
#[local] Abbreviation later := (EventSub.later json_loads api).
#[local] Abbreviation reachable := (EventSub.reachable json_loads api).
#[local] Abbreviation run := (EventSub.run json_loads api).

(** ** Message handling touches the sent requests only *)

Lemma set_requests_same s : set_requests (eventsub_requests s) s = s.
Proof. destruct s; reflexivity. Qed.

Lemma handle_json_message_fields msg s r s' :
  _handle_json_message api msg s = (r, s') ->
  s' = set_requests (eventsub_requests s') s.
Proof.
  unfold _handle_json_message. intros H.
  destruct (message_type_of msg) as [e|mt].
  { injection H as <- <-. symmetry. apply set_requests_same. }
  destruct (eq_str mt "session_welcome").
  - destruct (session_id_of msg) as [e|sid].
    { injection H as <- <-. symmetry. apply set_requests_same. }
    destruct (request_each api sid (_subscriptions s) (eventsub_requests s))
      as [r0 sent].
    injection H as <- <-. reflexivity.
  - injection H as <- <-. symmetry. apply set_requests_same.
Qed.

Lemma handle_raw_message_fields msg s r s' :
  _handle_raw_message json_loads api msg s = (r, s') ->
  s' = set_requests (eventsub_requests s') s.
Proof.
  unfold _handle_raw_message. intros H. destruct msg as [text|b].
  - destruct (json_loads text) as [e|j].
    + injection H as <- <-. symmetry. apply set_requests_same.
    + eapply handle_json_message_fields. eassumption.
  - injection H as <- <-. symmetry. apply set_requests_same.
Qed.

Lemma handle_client_turn_fields r s o s' :
  _handle_client_turn json_loads api r s = (o, s') ->
  s' = set_requests (eventsub_requests s') s.
Proof.
  unfold _handle_client_turn. intros H. destruct r as [e|msg].
  - destruct e; injection H as <- <-; symmetry; apply set_requests_same.
  - destruct (_handle_raw_message json_loads api msg s) as [[e|u] s1] eqn:Hraw;
      injection H as <- <-; eapply handle_raw_message_fields; eassumption.
Qed.

(** ** Case analysis of a step *)

(** The cases of a step of a thread, with the state it leads to written
    out. *)
Ltac thread_cases H :=
  cbn [EventSub.sys_step] in H; unfold EventSub.thread_step in H;
  let pc := fresh "pc" in
  let Hpc := fresh "Hpc" in
  match type of H with
  | context [threads ?s !! ?t] =>
      destruct (threads s !! t) as [pc|] eqn:Hpc; [|discriminate H]
  end;
  match type of H with
  | context [match ?ev with Tau => _ | _ => _ end] =>
      destruct pc as [| |?c|?c|?c ?pending|?c ?pending|?raised];
      destruct ev as [|[?e|]|?r]; try discriminate H
  end;
  try match type of H with
    | context [_handle_client_turn ?jl ?a ?r ?s] =>
        let o := fresh "o" in
        let s1 := fresh "s1" in
        let Hturn := fresh "Hturn" in
        let Hfields := fresh "Hfields" in
        destruct (_handle_client_turn jl a r s) as [o s1] eqn:Hturn;
        pose proof (handle_client_turn_fields _ _ _ _ Hturn) as Hfields;
        destruct o as [?pending|]
    end;
  injection H as <-.

Ltac break_goal :=
  repeat match goal with
    | |- context [match ?x with _ => _ end] => destruct x eqn:?; simpl
    end.

Ltac caller_cases H :=
  unfold EventSub.sys_step in H;
  match type of H with
  | context [caller_idle ?s] =>
      unfold caller_idle in H;
      let Hc := fresh "Hcaller" in
      destruct (caller s) eqn:Hc; try discriminate H; injection H as <-
  | context [stop_thread_join] =>
      let Hc := fresh "Hcaller" in
      destruct (caller _) as [|?client| |?th] eqn:Hc; try discriminate H;
      [injection H as <- | injection H as <- |
       unfold stop_thread_join in H;
       destruct th as [?t|];
       [destruct (is_alive _ _) eqn:?Halive; [discriminate H|] |];
       injection H as <-]
  end.

Ltac other_cases H :=
  cbn [EventSub.sys_step] in H;
  lazymatch type of H with
  | context [others ?s !! ?k] =>
      let Ho := fresh "Hother" in
      destruct (others s !! k) as [[|?client| |?th]|] eqn:Ho; try discriminate H;
      [injection H as <- | injection H as <- |
       unfold other_stop_join in H;
       destruct th as [?t|];
       [destruct (is_alive _ _) eqn:?Halive; [discriminate H|] |];
       injection H as <-]
  | _ => injection H as <-
  end.

(** ** The stop flag *)

(** No step clears [_should_stop]. *)
Lemma sys_step_should_stop l s s' :
  sys_step l s = Some s' -> _should_stop s = true -> _should_stop s' = true.
Proof.
  intros H Hflag. destruct l as [ty v c| | | |t ev|ty v c| | |k].
  - caller_cases H. unfold add_subscription. destruct (_thread s); assumption.
  - caller_cases H. unfold start_thread.
    destruct (_subscriptions s); [assumption|].
    destruct (match _thread s with Some t => _ | None => _ end); assumption.
  - caller_cases H. reflexivity.
  - caller_cases H; try assumption. destruct client; assumption.
  - thread_cases H; try rewrite Hfields; simpl; break_goal; congruence.
  - other_cases H. unfold add_subscription. destruct (_thread s); assumption.
  - other_cases H. unfold start_thread.
    destruct (_subscriptions s); [assumption|].
    destruct (match _thread s with Some t => _ | None => _ end); assumption.
  - other_cases H. reflexivity.
  - other_cases H; try assumption. destruct client; assumption.
Qed.


Lemma later_should_stop s s' :
  later s s' -> _should_stop s = true -> _should_stop s' = true.
Proof.
  induction 1 as [|s' s'' _ IH [l Hl]]; intros Hflag; [assumption|].
  eapply sys_step_should_stop; eauto.
Qed.


Lemma later_trans s1 s2 s3 : later s1 s2 -> later s2 s3 -> later s1 s3.
Proof.
  intros H12 H23. induction H23 as [|s3 s4 _ IH Hstep]; [assumption|].
  eapply later_step; eassumption.
Qed.

Lemma run_later ls s s' : run ls s = Some s' -> later s s'.
Proof.
  revert s. induction ls as [|l ls IH]; simpl; intros s H.
  - injection H as <-. constructor.
  - destruct (sys_step l s) as [s1|] eqn:Hl; [|discriminate].
    eapply later_trans; [|apply IH; eassumption].
    eapply later_step; [constructor|]. exists l. assumption.
Qed.

Lemma later_reachable s s' : reachable s -> later s s' -> reachable s'.
Proof.
  intros Hr. induction 1 as [|s' s'' _ IH Hstep]; [assumption|].
  eapply reachable_step; eassumption.
Qed.

Lemma run_reachable ls s s' : reachable s -> run ls s = Some s' -> reachable s'.
Proof. intros Hr H. eapply later_reachable; [eassumption|]. apply run_later with ls. assumption. Qed.

(** ** The invariant *)

Lemma inv_init : inv init.
Proof.
  constructor; simpl; try reflexivity; try discriminate; congruence.
Qed.

Lemma inv_current s t pc :
  inv s -> threads s !! t = Some pc -> exited pc = false ->
  _thread s = Some t /\ current_pc s = Some pc /\ _client s = publishes pc.
Proof.
  intros Hinv Hpc Hex. pose proof (inv_alive s Hinv t pc Hpc Hex) as Ht.
  assert (Hcur : current_pc s = Some pc) by (unfold current_pc; rewrite Ht; assumption).
  repeat split; try assumption. rewrite (inv_client s Hinv), Hcur. reflexivity.
Qed.

Lemma stopping_ok_caller s : inv s -> stopping_ok (_should_stop s) s (caller s).
Proof. intros Hinv. split; [apply inv_stopping | apply inv_join]; assumption. Qed.

Lemma stopping_ok_other s k pc :
  inv s -> others s !! k = Some pc -> stopping_ok (_should_stop s) s pc.
Proof.
  intros Hinv Hk. split.
  - eapply inv_stopping_others; eassumption.
  - intros th ->. eapply inv_join_others; eassumption.
Qed.

Lemma stopping_ok_true flag s pc : stopping_ok flag s pc -> stopping_ok true s pc.
Proof. intros [_ H]. split; [reflexivity|exact H]. Qed.

Lemma stopping_ok_Idle flag s : stopping_ok flag s Idle.
Proof. split; [congruence|discriminate]. Qed.

Lemma stopping_ok_StopClose s client : stopping_ok true s (StopClose client).
Proof. split; [reflexivity|discriminate]. Qed.

Lemma stopping_ok_StopRead s : stopping_ok true s StopRead.
Proof. split; [reflexivity|discriminate]. Qed.

Lemma stopping_ok_StopJoin s : stopping_ok true s (StopJoin (_thread s)).
Proof. split; [reflexivity|]. intros th [= <-]. left. reflexivity. Qed.

Lemma joining_thread_update s s' t pc new th :
  inv s -> threads s !! t = Some pc -> exited pc = false ->
  threads s' = <[t := new]> (threads s) -> _thread s' = _thread s ->
  (pc = AtCreate -> exited new = true) ->
  joining th s -> joining th s'.
Proof.
  intros Hinv Hpc Hex Hth Hthr Hnew [E|[pc0 [Hcur0 Hpc0]]].
  - left. rewrite Hthr. exact E.
  - right. exists new.
    destruct (inv_alive s Hinv t pc Hpc Hex) as [].
    assert (Ht : _thread s = Some t) by (eapply inv_alive; eassumption).
    assert (Hlt : t < length (threads s)) by (eapply lookup_lt_Some; eassumption).
    split.
    + unfold current_pc. rewrite Hthr, Ht, Hth. apply list_lookup_insert_eq. assumption.
    + unfold current_pc in Hcur0. rewrite Ht, Hpc in Hcur0. injection Hcur0 as <-.
      destruct Hpc0 as [Hat|Hbad]; [right; auto|congruence].
Qed.

(** A step of the thread that has not exited: it moves to [new], and may
    add a socket, change the state of one, set [_client] or send requests. *)
Lemma inv_thread_update s s' t pc new :
  inv s -> threads s !! t = Some pc -> exited pc = false ->
  threads s' = <[t := new]> (threads s) ->
  _thread s' = _thread s -> caller s' = caller s -> others s' = others s ->
  _should_stop s' = _should_stop s -> _subscriptions s' = _subscriptions s ->
  length (sockets s) <= length (sockets s') ->
  _client s' = publishes new ->
  (forall c, holds new = Some c -> c < length (sockets s')) ->
  (_should_stop s = true -> pc = AtCreate -> exited new = true) ->
  inv s'.
Proof.
  intros Hinv Hpc Hex Hth Hthr Hcal Hoth Hflag Hsubs Hlen Hcl Hnew Hstopped.
  destruct (inv_current s t pc Hinv Hpc Hex) as [Ht [Hcur _]].
  assert (Hlt : t < length (threads s)) by (eapply lookup_lt_Some; eassumption).
  constructor.
  - intros t' pc' H' Hex'. rewrite Hthr. rewrite Hth in H'.
    destruct (decide (t = t')) as [<-|Hne]; [assumption|].
    rewrite list_lookup_insert_ne in H' by assumption.
    eapply inv_alive; eassumption.
  - rewrite Hth, Hthr, length_insert. apply inv_last. assumption.
  - unfold current_pc. rewrite Hthr, Ht, Hth, list_lookup_insert_eq by assumption.
    assumption.
  - intros t' pc' c H' Hc. rewrite Hth in H'.
    destruct (decide (t = t')) as [<-|Hne].
    + rewrite list_lookup_insert_eq in H' by assumption. injection H' as <-. auto.
    + rewrite list_lookup_insert_ne in H' by assumption.
      pose proof (inv_socket s Hinv t' pc' c H' Hc). lia.
  - intros th Hc. rewrite Hcal in Hc.
    apply (joining_thread_update s s' t pc new th); try assumption.
    + apply Hstopped. apply (inv_stopping s Hinv). congruence.
    + apply (inv_join s Hinv). assumption.
  - intros k th Hk. rewrite Hoth in Hk.
    apply (joining_thread_update s s' t pc new th); try assumption.
    + apply Hstopped. apply (inv_stopping_others s Hinv k _ Hk). discriminate.
    + apply (inv_join_others s Hinv k). assumption.
  - rewrite Hcal, Hflag. apply inv_stopping. assumption.
  - rewrite Hoth, Hflag. apply inv_stopping_others. assumption.
  - rewrite Hthr, Hsubs. apply inv_subscribed. assumption.
Qed.

(** A step of a calling thread that starts no thread. *)
Lemma inv_caller_update s s' :
  inv s ->
  threads s' = threads s -> _thread s' = _thread s -> _client s' = _client s ->
  length (sockets s') = length (sockets s) ->
  (_subscriptions s <> [] -> _subscriptions s' <> []) ->
  stopping_ok (_should_stop s') s (caller s') ->
  (forall k pc, others s' !! k = Some pc -> stopping_ok (_should_stop s') s pc) ->
  inv s'.
Proof.
  intros Hinv Hth Hthr Hcl Hlen Hsubs Hcal Hoth.
  assert (Hjoin : forall th, joining th s -> joining th s').
  { intros th [E|H]; [left; congruence|right].
    unfold current_pc in *. rewrite Hthr, Hth. exact H. }
  constructor.
  - rewrite Hth, Hthr. apply inv_alive. assumption.
  - rewrite Hth, Hthr. apply inv_last. assumption.
  - unfold current_pc. rewrite Hcl, Hth, Hthr. apply (inv_client s Hinv).
  - rewrite Hth, Hlen. apply inv_socket. assumption.
  - intros th Hc. apply Hjoin. apply (proj2 Hcal). assumption.
  - intros k th Hk. apply Hjoin. apply (proj2 (Hoth k _ Hk)). reflexivity.
  - apply (proj1 Hcal).
  - intros k pc Hk. apply (proj1 (Hoth k pc Hk)).
  - rewrite Hthr. intros H. apply Hsubs. apply inv_subscribed; assumption.
Qed.

Lemma length_close c s : length (sockets (close c s)) = length (sockets s).
Proof. unfold close. simpl. apply length_insert. Qed.

Lemma inv_add_subscription ty v c s :
  inv s -> inv (or_unchanged s (add_subscription ty v c s)).
Proof.
  intros Hinv. unfold add_subscription.
  destruct (_thread s) eqn:Ht; simpl; [assumption|].
  apply (inv_caller_update s); simpl; try reflexivity; try assumption.
  - intros _ H. apply app_eq_nil in H as [_ H]. discriminate.
  - apply stopping_ok_caller. assumption.
  - intros k pc. apply stopping_ok_other. assumption.
Qed.

Lemma not_alive_exited s t :
  inv s -> _thread s = Some t -> is_alive t s = false ->
  forall t' pc, threads s !! t' = Some pc -> exited pc = true.
Proof.
  intros Hinv Ht Halive t' pc Hpc.
  destruct (exited pc) eqn:Hex; [reflexivity|].
  pose proof (inv_alive s Hinv t' pc Hpc Hex) as Ht'.
  rewrite Ht in Ht'. injection Ht' as ->.
  unfold is_alive in Halive. rewrite Hpc, Hex in Halive. discriminate.
Qed.

Lemma never_started_no_threads s :
  inv s -> _thread s = None -> threads s = [].
Proof.
  intros Hinv Ht. pose proof (inv_last s Hinv) as H. rewrite Ht in H.
  destruct (threads s); [reflexivity|discriminate].
Qed.

(** Where [start_thread] is accepted every thread has exited and no
    client is current. *)
Lemma start_thread_accepts s :
  inv s ->
  match _thread s with None => true | Some t => negb (is_alive t s) end = true ->
  (forall t pc, threads s !! t = Some pc -> exited pc = true) /\ _client s = None.
Proof.
  intros Hinv H. destruct (_thread s) as [t|] eqn:Ht.
  - apply negb_true_iff in H.
    pose proof (not_alive_exited s t Hinv Ht H) as Hall.
    split; [assumption|]. rewrite (inv_client s Hinv). unfold current_pc. rewrite Ht.
    destruct (threads s !! t) as [pc|] eqn:Hpc; [|reflexivity].
    specialize (Hall t pc Hpc). destruct pc; try discriminate. reflexivity.
  - split.
    + intros t pc Hpc. rewrite (never_started_no_threads s Hinv Ht) in Hpc.
      rewrite lookup_nil in Hpc. discriminate.
    + rewrite (inv_client s Hinv). unfold current_pc. rewrite Ht. reflexivity.
Qed.

Lemma inv_start_thread s :
  inv s -> inv (or_unchanged s (start_thread s)).
Proof.
  intros Hinv. unfold start_thread.
  destruct (_subscriptions s) as [|sub subs] eqn:Hsubs; simpl; [assumption|].
  destruct (match _thread s with None => true | Some t => negb (is_alive t s) end)
    eqn:Hok; simpl; [|assumption].
  destruct (start_thread_accepts s Hinv Hok) as [Hall Hcl].
  assert (Hnew : forall th,
            joining th (set_thread (Some (length (threads s)))
                          (set_threads (threads s ++ [AtCreate]) s))).
  { intros th. right. exists AtCreate. split; [|now left].
    unfold current_pc. simpl. rewrite lookup_app_r by lia.
    rewrite Nat.sub_diag. reflexivity. }
  constructor; simpl.
  - intros t pc Hpc Hex. apply lookup_app_Some in Hpc as [Hpc|[Hge Hpc]].
    + rewrite (Hall t pc Hpc) in Hex. discriminate.
    + apply list_lookup_singleton_Some in Hpc as [Hz _]. f_equal. lia.
  - rewrite length_app. simpl. lia.
  - unfold current_pc. simpl. rewrite lookup_app_r by lia.
    rewrite Nat.sub_diag. simpl. assumption.
  - intros t pc c Hpc Hholds. apply lookup_app_Some in Hpc as [Hpc|[Hge Hpc]].
    + eapply inv_socket; eassumption.
    + apply list_lookup_singleton_Some in Hpc as [_ <-]. discriminate.
  - intros th _. apply Hnew.
  - intros k th _. apply Hnew.
  - apply (inv_stopping s Hinv).
  - apply (inv_stopping_others s Hinv).
  - rewrite Hsubs. discriminate.
Qed.

Lemma others_insert (P : caller_pc -> Prop) (l : list caller_pc) k new :
  (forall k' pc, l !! k' = Some pc -> P pc) -> P new ->
  forall k' pc, <[k := new]> l !! k' = Some pc -> P pc.
Proof.
  intros Hl Hnew k' pc H. apply list_lookup_insert_Some in H as [[_ [<- _]]|[_ H]];
    [assumption|eauto].
Qed.

Lemma others_snoc (P : caller_pc -> Prop) (l : list caller_pc) new :
  (forall k' pc, l !! k' = Some pc -> P pc) -> P new ->
  forall k' pc, (l ++ [new]) !! k' = Some pc -> P pc.
Proof.
  intros Hl Hnew k' pc H. apply lookup_app_Some in H as [H|[_ H]]; [eauto|].
  apply list_lookup_singleton_Some in H as [_ <-]. assumption.
Qed.

Lemma inv_sys_step l s s' : inv s -> sys_step l s = Some s' -> inv s'.
Proof.
  intros Hinv H.
  pose proof (stopping_ok_caller s Hinv) as Hcal.
  pose proof (fun k pc => stopping_ok_other s k pc Hinv) as Hoth.
  destruct l as [ty v c| | | |t ev|ty v c| | |k].
  - caller_cases H. apply inv_add_subscription; assumption.
  - caller_cases H. apply inv_start_thread; assumption.
  - caller_cases H.
    apply (inv_caller_update s); simpl;
      [assumption | reflexivity | reflexivity | reflexivity | reflexivity
      | auto | apply stopping_ok_StopClose
      | intros k pc Hk; eapply stopping_ok_true, Hoth; eassumption].
  - assert (Hstop : _should_stop s = true).
    { apply (inv_stopping s Hinv). intros Hidle. cbn in H. rewrite Hidle in H.
      discriminate. }
    caller_cases H.
    + destruct client;
        (apply (inv_caller_update s); simpl;
         [assumption | reflexivity | reflexivity | reflexivity
         | try apply length_insert; reflexivity
         | auto | rewrite Hstop; apply stopping_ok_StopRead | exact Hoth]).
    + apply (inv_caller_update s); simpl;
        [assumption | reflexivity | reflexivity | reflexivity | reflexivity
        | auto | rewrite Hstop; apply stopping_ok_StopJoin | exact Hoth].
    + apply (inv_caller_update s); simpl;
        [assumption | reflexivity | reflexivity | reflexivity | reflexivity
        | auto | apply stopping_ok_Idle | exact Hoth].
    + apply (inv_caller_update s); simpl;
        [assumption | reflexivity | reflexivity | reflexivity | reflexivity
        | auto | apply stopping_ok_Idle | exact Hoth].
  - thread_cases H.
    all: try (destruct (inv_current s t _ Hinv Hpc eq_refl) as [Ht [Hcur Hcl]];
              simpl in Hcl).
    all: try rewrite Hcl.
    all: try (rewrite Hfields; clear Hfields Hturn).
    all: try destruct (_should_stop s) eqn:Hflag.
    all: try destruct pending.
    all: eapply (inv_thread_update s _ t _ _ Hinv Hpc eq_refl);
      [ simpl; first [reflexivity | symmetry; apply list_insert_id; exact Hpc]
      | reflexivity | reflexivity | reflexivity | reflexivity | reflexivity
      | simpl; rewrite ?length_insert, ?length_app; simpl; lia
      | simpl; first [reflexivity | exact Hcl]
      | simpl; intros c0 Hc0; try discriminate; injection Hc0 as <-;
        rewrite ?length_insert, ?length_app; simpl; try lia;
        pose proof (inv_socket s Hinv t _ _ Hpc eq_refl); lia
      | intros Hs Hat; first [congruence | reflexivity] ].
  - other_cases H. apply inv_add_subscription; assumption.
  - other_cases H. apply inv_start_thread; assumption.
  - other_cases H.
    apply (inv_caller_update s); simpl;
      [assumption | reflexivity | reflexivity | reflexivity | reflexivity
      | auto | eapply stopping_ok_true; exact Hcal
      | apply others_snoc;
        [intros k pc Hk; eapply stopping_ok_true, Hoth; eassumption
        |apply stopping_ok_StopClose]].
  - assert (Hstop : _should_stop s = true).
    { cbn in H. destruct (others s !! k) as [pc|] eqn:Hk; [|discriminate].
      apply (inv_stopping_others s Hinv k pc Hk). intros ->. discriminate. }
    other_cases H.
    + destruct client;
        (apply (inv_caller_update s); simpl;
         [assumption | reflexivity | reflexivity | reflexivity
         | try apply length_insert; reflexivity
         | auto | exact Hcal
         | apply others_insert;
           [exact Hoth | rewrite Hstop; apply stopping_ok_StopRead]]).
    + apply (inv_caller_update s); simpl;
        [assumption | reflexivity | reflexivity | reflexivity | reflexivity
        | auto | exact Hcal
        | apply others_insert;
          [exact Hoth | rewrite Hstop; apply stopping_ok_StopJoin]].
    + apply (inv_caller_update s); simpl;
        [assumption | reflexivity | reflexivity | reflexivity | reflexivity
        | auto | exact Hcal
        | apply others_insert; [exact Hoth | apply stopping_ok_Idle]].
    + apply (inv_caller_update s); simpl;
        [assumption | reflexivity | reflexivity | reflexivity | reflexivity
        | auto | exact Hcal
        | apply others_insert; [exact Hoth | apply stopping_ok_Idle]].
Qed.

Lemma reachable_inv s : reachable s -> inv s.
Proof.
  induction 1 as [|s s' _ IH [l Hl]]; [apply inv_init|].
  eapply inv_sys_step; eassumption.
Qed.

(** ** The steps of a thread, one rule each *)

Lemma lookup_set_pc t pc s :
  t < length (threads s) -> threads (set_pc t pc s) !! t = Some pc.
Proof. intros H. simpl. apply list_lookup_insert_eq. assumption. Qed.

Lemma step_create_refuses t s :
  threads s !! t = Some AtCreate -> _client s = None -> _should_stop s = true ->
  thread_step t Tau s = Some (set_pc t (Exited None) s).
Proof. intros Hpc Hcl Hflag. unfold EventSub.thread_step. rewrite Hpc, Hcl, Hflag. reflexivity. Qed.

Lemma step_create_connects t s :
  threads s !! t = Some AtCreate -> _client s = None -> _should_stop s = false ->
  thread_step t Tau s = Some (set_pc t Connecting s).
Proof. intros Hpc Hcl Hflag. unfold EventSub.thread_step. rewrite Hpc, Hcl, Hflag. reflexivity. Qed.


Lemma step_connected_publishes t c s :
  threads s !! t = Some (Connected c) -> _client s = None -> _should_stop s = false ->
  thread_step t Tau s = Some (set_pc t (InRecv c) (set_client (Some c) s)).
Proof. intros Hpc Hcl Hflag. unfold EventSub.thread_step. rewrite Hpc, Hcl, Hflag. reflexivity. Qed.

Lemma step_recv_closed t c r s :
  threads s !! t = Some (InRecv c) ->
  r = raise ConnectionClosedOK \/ r = raise ConnectionClosedError ->
  thread_step t (Recv r) s = Some (set_pc t (FinallyClose c None) s).
Proof.
  intros Hpc Hr. unfold EventSub.thread_step. rewrite Hpc.
  destruct Hr as [-> | ->]; reflexivity.
Qed.

Lemma step_recv_binary t c b s :
  threads s !! t = Some (InRecv c) ->
  thread_step t (Recv (ok (Binary b))) s =
    Some (set_pc t (FinallyClose c
            (Some (TypeErrorMsg "unsupported message type: <class 'bytes'>"))) s).
Proof. intros Hpc. unfold EventSub.thread_step. rewrite Hpc. reflexivity. Qed.

Lemma step_finally_close t c pending s :
  threads s !! t = Some (FinallyClose c pending) ->
  thread_step t Tau s = Some (set_pc t (FinallyClear c pending) (close c s)).
Proof. intros Hpc. unfold EventSub.thread_step. rewrite Hpc. reflexivity. Qed.

Lemma step_finally_clear t c pending s :
  threads s !! t = Some (FinallyClear c pending) ->
  thread_step t Tau s =
    Some (set_pc t (match pending with
                    | None => AtCreate
                    | Some e => Exited (Some e)
                    end) (set_client None s)).
Proof. intros Hpc. unfold EventSub.thread_step. rewrite Hpc. reflexivity. Qed.

Lemma step_exited t raised ev s :
  threads s !! t = Some (Exited raised) -> thread_step t ev s = None.
Proof. intros Hpc. unfold EventSub.thread_step. rewrite Hpc. destruct ev; reflexivity. Qed.

(** ** Stopping *)

(** [join] of the thread of [_thread] returns with every thread exited. *)
Lemma stop_thread_join_exited s th s' :
  inv s -> th = _thread s -> stop_thread_join th s = Some s' ->
  caller s' = Idle /\ forall t pc, threads s' !! t = Some pc -> exited pc = true.
Proof.
  intros Hinv Hth H.
  unfold stop_thread_join in H. destruct th as [t|].
  - destruct (is_alive t s) eqn:Halive; [discriminate|]. injection H as <-.
    split; [reflexivity|]. simpl. eapply not_alive_exited; eauto.
  - injection H as <-. split; [reflexivity|]. simpl. intros t pc Hpc.
    rewrite (never_started_no_threads s Hinv) in Hpc by auto.
    rewrite lookup_nil in Hpc. discriminate.
Qed.

(** Where a [join] can return: the flag is set, no thread is past its
    first test of the flag, and no client is current. *)
Lemma joined_is_spent s th :
  inv s -> joining th s -> _should_stop s = true ->
  (forall t, th = Some t -> is_alive t s = false) ->
  spent s /\ _client s = None.
Proof.
  intros Hinv Hj Hflag Hdead.
  assert (Hall : forall t pc, threads s !! t = Some pc ->
                              pc = AtCreate \/ exited pc = true).
  { destruct Hj as [->|[pc0 [Hcur0 Hpc0]]].
    - intros t pc Hpc. right. destruct (_thread s) as [t0|] eqn:Ht.
      + eapply not_alive_exited; eauto.
      + rewrite (never_started_no_threads s Hinv Ht) in Hpc.
        rewrite lookup_nil in Hpc. discriminate.
    - intros t pc Hpc. destruct (exited pc) eqn:Hex; [now right|].
      destruct (inv_current s t pc Hinv Hpc Hex) as [_ [Hcur _]].
      rewrite Hcur in Hcur0. injection Hcur0 as <-.
      destruct Hpc0 as [Hat|Hbad]; [now left|congruence]. }
  split; [split; assumption|].
  rewrite (inv_client s Hinv). destruct (current_pc s) as [pc|] eqn:Hcur; [|reflexivity].
  unfold current_pc in Hcur. destruct (_thread s) as [t|]; [|discriminate].
  destruct (Hall t pc Hcur) as [->|Hex]; [reflexivity|].
  destruct pc; try discriminate. reflexivity.
Qed.

(** The steps that leave the caller where it is. *)
Lemma sys_step_caller_kept l s s' :
  sys_step l s = Some s' ->
  l <> Caller_continue -> l <> Call_stop_thread -> caller s' = caller s.
Proof.
  intros H Hl1 Hl2. destruct l as [ty v c| | | |t ev|ty v c| | |k]; try congruence.
  - caller_cases H. unfold add_subscription. destruct (_thread s); simpl; congruence.
  - caller_cases H. unfold start_thread.
    destruct (_subscriptions s); simpl; [congruence|].
    destruct (match _thread s with Some t => _ | None => _ end); simpl; congruence.
  - thread_cases H; try rewrite Hfields; simpl; break_goal; reflexivity.
  - other_cases H. unfold add_subscription. destruct (_thread s); reflexivity.
  - other_cases H. unfold start_thread.
    destruct (_subscriptions s); [reflexivity|].
    destruct (match _thread s with Some t => _ | None => _ end); reflexivity.
  - other_cases H. reflexivity.
  - other_cases H; try reflexivity. destruct client; reflexivity.
Qed.

(** The caller leaves [stop_thread] by the return of its [join], and by
    no other step. *)
Lemma caller_returns l s s' :
  caller s <> Idle -> sys_step l s = Some s' -> caller s' = Idle ->
  exists th, l = Caller_continue /\ caller s = StopJoin th /\
             stop_thread_join th s = Some s'.
Proof.
  intros Hin H Hout.
  assert (Hkept : l <> Caller_continue -> l <> Call_stop_thread -> False).
  { intros Hl1 Hl2. rewrite (sys_step_caller_kept l s s' H Hl1 Hl2) in Hout.
    congruence. }
  destruct l as [ty v c| | | |t ev|ty v c| | |k];
    try (exfalso; apply Hkept; discriminate).
  - cbn in H. unfold caller_idle in H. destruct (caller s); congruence.
  - cbn in H. destruct (caller s) as [|client| |th] eqn:Hc.
    + congruence.
    + injection H as <-. discriminate Hout.
    + injection H as <-. discriminate Hout.
    + exists th. auto.
Qed.




(** ** Reconnecting *)

(** C9. A thread in [recv], no stop requested: when [recv] raises
    [ConnectionClosedOK] or [ConnectionClosedError] the receive loop is
    left with no exception pending, the socket is closed, [_client] is
    cleared, and the next step of the thread, taken with [_client] already
    [None], enters a new connect; the connect then returns a socket that
    is not the closed one. The thread has not exited, and nothing of the
    caller's side has changed. *)
Theorem closure_then_reconnect s t c r :
  reachable s ->
  threads s !! t = Some (InRecv c) ->
  _should_stop s = false ->
  r = raise ConnectionClosedOK \/ r = raise ConnectionClosedError ->
  exists s1 s2 s3 s4 s5,
    thread_step t (Recv r) s = Some s1 /\
    threads s1 !! t = Some (FinallyClose c None) /\
    thread_step t Tau s1 = Some s2 /\
    sockets s2 !! c = Some SockClosed /\
    thread_step t Tau s2 = Some s3 /\
    threads s3 !! t = Some AtCreate /\ _client s3 = None /\
    thread_step t Tau s3 = Some s4 /\
    threads s4 !! t = Some Connecting /\ _client s4 = None /\
    is_alive t s4 = true /\
    run [Thread t (Recv r); Thread t Tau; Thread t Tau; Thread t Tau] s = Some s4 /\
    _thread s4 = _thread s /\ caller s4 = caller s /\
    _should_stop s4 = false /\ _subscriptions s4 = _subscriptions s /\
    thread_step t (Connect None) s4 = Some s5 /\
    threads s5 !! t = Some (Connected (length (sockets s))) /\
    c < length (sockets s).
Proof.
  intros Hr Hpc Hflag Hclosed. pose proof (reachable_inv s Hr) as Hinv.
  assert (Hlt : t < length (threads s)) by (eapply lookup_lt_Some; eassumption).
  assert (Hc : c < length (sockets s))
    by (eapply (inv_socket s Hinv); [eassumption|reflexivity]).
  set (s1 := set_pc t (FinallyClose c None) s).
  set (s2 := set_pc t (FinallyClear c None) (close c s1)).
  set (s3 := set_pc t AtCreate (set_client None s2)).
  set (s4 := set_pc t Connecting s3).
  set (s5 := set_pc t (Connected (length (sockets s4)))
               (set_sockets (sockets s4 ++ [SockOpen]) s4)).
  assert (H1 : thread_step t (Recv r) s = Some s1)
    by (apply step_recv_closed; assumption).
  assert (Hpc1 : threads s1 !! t = Some (FinallyClose c None))
    by (apply lookup_set_pc; assumption).
  assert (H2 : thread_step t Tau s1 = Some s2)
    by (apply step_finally_close; assumption).
  assert (Hpc2 : threads s2 !! t = Some (FinallyClear c None))
    by (apply lookup_set_pc; simpl; rewrite length_insert; assumption).
  assert (H3 : thread_step t Tau s2 = Some s3)
    by (apply (step_finally_clear t c None); assumption).
  assert (Hpc3 : threads s3 !! t = Some AtCreate)
    by (apply lookup_set_pc; simpl; rewrite !length_insert; assumption).
  assert (H4 : thread_step t Tau s3 = Some s4)
    by (apply step_create_connects; [assumption|reflexivity|assumption]).
  assert (Hpc4 : threads s4 !! t = Some Connecting)
    by (apply lookup_set_pc; simpl; rewrite !length_insert; assumption).
  assert (H5 : thread_step t (Connect None) s4 = Some s5)
    by (unfold EventSub.thread_step; rewrite Hpc4; reflexivity).
  exists s1, s2, s3, s4, s5.
  repeat (split; [first [assumption | reflexivity]|]).
  split; [simpl; apply list_lookup_insert_eq; assumption|].
  repeat (split; [first [assumption | reflexivity]|]).
  split; [unfold is_alive; rewrite Hpc4; reflexivity|].
  split.
  { cbn [EventSub.run EventSub.sys_step]. rewrite H1, H2, H3, H4. reflexivity. }
  repeat (split; [first [assumption | reflexivity]|]).
  split; [|assumption].
  replace (length (sockets s)) with (length (sockets s4))
    by (simpl; apply length_insert).
  apply lookup_set_pc. simpl. rewrite !length_insert. assumption.
Qed.

(** ** A binary frame *)

(** C7, amended. A [bytes] message makes [_handle_raw_message] raise
    [TypeError("unsupported message type: <class 'bytes'>")], the manager
    as it was. Nothing catches it: the thread leaves the receive loop,
    closes the socket, clears [_client] and exits with that exception,
    and takes no further step; the subscriptions, the requests sent, the
    stop flag, [_thread] and the caller are as they were. *)
Theorem binary_message_raises_and_ends_thread s t c b :
  reachable s ->
  threads s !! t = Some (InRecv c) ->
  let e := TypeErrorMsg "unsupported message type: <class 'bytes'>" in
  _handle_raw_message json_loads api (Binary b) s = (raise e, s) /\
  exists s3,
    run [Thread t (Recv (ok (Binary b))); Thread t Tau; Thread t Tau] s = Some s3 /\
    threads s3 !! t = Some (Exited (Some e)) /\
    is_alive t s3 = false /\
    (forall ev, thread_step t ev s3 = None) /\
    _client s3 = None /\
    sockets s3 !! c = Some SockClosed /\
    _subscriptions s3 = _subscriptions s /\
    eventsub_requests s3 = eventsub_requests s /\
    _should_stop s3 = _should_stop s /\
    _thread s3 = _thread s /\
    caller s3 = caller s.
Proof.
  intros Hr Hpc e. pose proof (reachable_inv s Hr) as Hinv.
  assert (Hlt : t < length (threads s)) by (eapply lookup_lt_Some; eassumption).
  assert (Hc : c < length (sockets s))
    by (eapply (inv_socket s Hinv); [eassumption|reflexivity]).
  split; [reflexivity|].
  set (s1 := set_pc t (FinallyClose c (Some e)) s).
  set (s2 := set_pc t (FinallyClear c (Some e)) (close c s1)).
  set (s3 := set_pc t (Exited (Some e)) (set_client None s2)).
  assert (H1 : thread_step t (Recv (ok (Binary b))) s = Some s1)
    by (apply step_recv_binary; assumption).
  assert (Hpc1 : threads s1 !! t = Some (FinallyClose c (Some e)))
    by (apply lookup_set_pc; assumption).
  assert (H2 : thread_step t Tau s1 = Some s2)
    by (apply step_finally_close; assumption).
  assert (Hpc2 : threads s2 !! t = Some (FinallyClear c (Some e)))
    by (apply lookup_set_pc; simpl; rewrite length_insert; assumption).
  assert (H3 : thread_step t Tau s2 = Some s3)
    by (apply (step_finally_clear t c (Some e)); assumption).
  assert (Hpc3 : threads s3 !! t = Some (Exited (Some e)))
    by (apply lookup_set_pc; simpl; rewrite !length_insert; assumption).
  exists s3. split.
  { cbn [EventSub.run EventSub.sys_step]. rewrite H1, H2, H3. reflexivity. }
  split; [assumption|].
  split; [unfold is_alive; rewrite Hpc3; reflexivity|].
  split; [intros ev; eapply step_exited; eassumption|].
  split; [reflexivity|].
  split; [simpl; apply list_lookup_insert_eq; assumption|].
  repeat split.
Qed.

(** ** Registering subscriptions *)

Lemma add_subscription_before_start ty v c s :
  _thread s = None ->
  add_subscription ty v c s
  = ok (set_subscriptions (_subscriptions s ++ [Subscription ty v c]) s).
Proof. intros H. unfold add_subscription. rewrite H. reflexivity. Qed.

Lemma add_subscription_after_start ty v c s t :
  _thread s = Some t -> add_subscription ty v c s = raise (TypeError NotCallable).
Proof. intros H. unfold add_subscription. rewrite H. reflexivity. Qed.

(** [_thread], once set, is never [None] again. *)
Lemma sys_step_thread_started l s s' :
  sys_step l s = Some s' -> _thread s <> None -> _thread s' <> None.
Proof.
  intros H Hs. destruct l as [ty v c| | | |t ev|ty v c| | |k].
  - caller_cases H. unfold add_subscription.
    destruct (_thread s) eqn:E; simpl; congruence.
  - caller_cases H. unfold start_thread.
    destruct (_subscriptions s); [assumption|].
    destruct (match _thread s with Some t => _ | None => _ end); simpl;
      [discriminate|assumption].
  - caller_cases H. assumption.
  - caller_cases H; try assumption. destruct client; assumption.
  - thread_cases H; try rewrite Hfields; simpl; break_goal; assumption.
  - other_cases H. unfold add_subscription.
    destruct (_thread s) eqn:E; simpl; congruence.
  - other_cases H. unfold start_thread.
    destruct (_subscriptions s); [assumption|].
    destruct (match _thread s with Some t => _ | None => _ end); simpl;
      [discriminate|assumption].
  - other_cases H. assumption.
  - other_cases H; try assumption. destruct client; assumption.
Qed.

(** ** After a stop *)

(** From a spent state every step leads to a spent state, opens no socket
    and leaves [_client] alone. *)
Lemma spent_sys_step l s s' :
  spent s -> sys_step l s = Some s' ->
  spent s' /\ length (sockets s') = length (sockets s) /\ _client s' = _client s.
Proof.
  intros [Hflag Hall] H.
  split; [split; [eapply sys_step_should_stop; eassumption|]|].
  - destruct l as [ty v c| | | |t ev|ty v c| | |k].
    + caller_cases H. unfold add_subscription. destruct (_thread s); exact Hall.
    + caller_cases H. unfold start_thread.
      destruct (_subscriptions s); [exact Hall|].
      destruct (match _thread s with Some t => _ | None => _ end); [|exact Hall].
      simpl. intros t pc Hpc. apply lookup_app_Some in Hpc as [Hpc|[_ Hpc]].
      * eapply Hall; eassumption.
      * apply list_lookup_singleton_Some in Hpc as [_ <-]. now left.
    + caller_cases H. exact Hall.
    + caller_cases H; try exact Hall. destruct client; exact Hall.
    + thread_cases H;
        try (destruct (Hall _ _ Hpc) as [Hbad|Hbad]; discriminate Hbad).
      assert (Hnew : exists raised,
                 threads (match _client s with
                          | Some _ => set_pc t (Exited (Some (AssertionError ""))) s
                          | None => if _should_stop s then set_pc t (Exited None) s
                                    else set_pc t Connecting s
                          end) = <[t := Exited raised]> (threads s)).
      { rewrite Hflag. destruct (_client s); eexists; reflexivity. }
      destruct Hnew as [raised ->]. intros t' pc' Hpc'.
      destruct (decide (t = t')) as [<-|Hne].
      * rewrite list_lookup_insert_eq in Hpc' by (eapply lookup_lt_Some; eassumption).
        injection Hpc' as <-. now right.
      * rewrite list_lookup_insert_ne in Hpc' by assumption. eapply Hall; eassumption.
    + other_cases H. unfold add_subscription. destruct (_thread s); exact Hall.
    + other_cases H. unfold start_thread.
      destruct (_subscriptions s); [exact Hall|].
      destruct (match _thread s with Some t => _ | None => _ end); [|exact Hall].
      simpl. intros t pc Hpc. apply lookup_app_Some in Hpc as [Hpc|[_ Hpc]].
      * eapply Hall; eassumption.
      * apply list_lookup_singleton_Some in Hpc as [_ <-]. now left.
    + other_cases H. exact Hall.
    + other_cases H; try exact Hall. destruct client; exact Hall.
  - destruct l as [ty v c| | | |t ev|ty v c| | |k].
    + caller_cases H. unfold add_subscription. destruct (_thread s); split; reflexivity.
    + caller_cases H. unfold start_thread.
      destruct (_subscriptions s); [split; reflexivity|].
      destruct (match _thread s with Some t => _ | None => _ end); split; reflexivity.
    + caller_cases H. split; reflexivity.
    + caller_cases H; try (split; reflexivity).
      destruct client; split; try reflexivity. apply length_close.
    + thread_cases H;
        try (destruct (Hall _ _ Hpc) as [Hbad|Hbad]; discriminate Hbad).
      rewrite Hflag. destruct (_client s) eqn:E; simpl; split; try reflexivity; assumption.
    + other_cases H. unfold add_subscription. destruct (_thread s); split; reflexivity.
    + other_cases H. unfold start_thread.
      destruct (_subscriptions s); [split; reflexivity|].
      destruct (match _thread s with Some t => _ | None => _ end); split; reflexivity.
    + other_cases H. split; reflexivity.
    + other_cases H; try (split; reflexivity).
      destruct client; split; try reflexivity. apply length_close.
Qed.

Lemma later_spent s s' :
  spent s -> later s s' ->
  spent s' /\ length (sockets s') = length (sockets s) /\ _client s' = _client s.
Proof.
  intros Hs. induction 1 as [|s' s'' _ [IHs [IHl IHc]] [l Hl]]; [auto|].
  destruct (spent_sys_step _ _ _ IHs Hl) as [Hs' [Hl' Hc']].
  split; [assumption|]. split; congruence.
Qed.

(** C10. After [stop_thread], with the thread of [_thread] exited and
    the caller back from the call: [_should_stop] is set in every later
    state; [start_thread] is accepted and starts a thread; that thread's
    first step finds the flag set and exits without an exception; and in
    every state after that [start_thread] no socket has been opened, no
    client is current and no thread is past its first test of the flag. *)
Theorem stopped_instance_is_single_use s t :
  reachable s ->
  _should_stop s = true -> caller s = Idle ->
  _thread s = Some t -> is_alive t s = false ->
  (forall s', later s s' -> _should_stop s' = true) /\
  exists s1,
    start_thread s = ok s1 /\
    _thread s1 = Some (length (threads s)) /\
    threads s1 !! length (threads s) = Some AtCreate /\
    _should_stop s1 = true /\
    thread_step (length (threads s)) Tau s1
    = Some (set_pc (length (threads s)) (Exited None) s1) /\
    sockets (set_pc (length (threads s)) (Exited None) s1) = sockets s /\
    (forall s2, later s1 s2 ->
       length (sockets s2) = length (sockets s) /\ _client s2 = None /\
       forall t' pc, threads s2 !! t' = Some pc -> pc = AtCreate \/ exited pc = true).
Proof.
  intros Hr Hflag Hidle Ht Halive. pose proof (reachable_inv s Hr) as Hinv.
  split; [intros s' Hl; eapply later_should_stop; eassumption|].
  assert (Hok : match _thread s with None => true | Some t => negb (is_alive t s) end
                = true) by (rewrite Ht, Halive; reflexivity).
  destruct (start_thread_accepts s Hinv Hok) as [Hall Hcl].
  assert (Hsubs : _subscriptions s <> [])
    by (apply (inv_subscribed s Hinv); congruence).
  set (s1 := set_thread (Some (length (threads s)))
               (set_threads (threads s ++ [AtCreate]) s)).
  assert (Hstart : start_thread s = ok s1).
  { unfold start_thread. destruct (_subscriptions s); [congruence|].
    rewrite Hok. reflexivity. }
  assert (Hpc1 : threads s1 !! length (threads s) = Some AtCreate).
  { simpl. rewrite lookup_app_r by lia. rewrite Nat.sub_diag. reflexivity. }
  assert (Hspent : spent s1).
  { split; [assumption|]. simpl. intros t' pc Hpc.
    apply lookup_app_Some in Hpc as [Hpc|[_ Hpc]].
    - right. eapply Hall; eassumption.
    - apply list_lookup_singleton_Some in Hpc as [_ <-]. now left. }
  exists s1. repeat (split; [first [assumption | reflexivity]|]).
  split; [apply step_create_refuses; assumption|].
  split; [reflexivity|].
  intros s2 Hl. destruct (later_spent s1 s2 Hspent Hl) as [[_ Hall2] [Hlen Hc2]].
  split; [exact Hlen|]. split; [rewrite Hc2; exact Hcl|exact Hall2].
Qed.

(** ** The welcome message *)

Lemma request_each_accepted session_id subs sent :
  (forall sent' sub, In sub subs ->
     api sent' (subscription_request session_id sub) = None) ->
  request_each api session_id subs sent
  = (ok tt, sent ++ List.map (subscription_request session_id) subs).
Proof.
  revert sent. induction subs as [|sub subs IH]; simpl; intros sent Hacc.
  - rewrite app_nil_r. reflexivity.
  - rewrite (Hacc sent sub) by now left.
    rewrite IH by (intros; apply Hacc; now right).
    rewrite <- app_assoc. reflexivity.
Qed.

(** The requests made up to the first one the client rejects. *)
Lemma request_each_sent session_id subs sent r sent' :
  request_each api session_id subs sent = (r, sent') ->
  exists n, n <= length subs /\
    sent' = sent ++ List.map (subscription_request session_id) (take n subs).
Proof.
  revert sent. induction subs as [|sub subs IH]; simpl; intros sent H.
  - injection H as <- <-. exists 0. split; [lia|]. simpl. rewrite app_nil_r. reflexivity.
  - destruct (api sent (subscription_request session_id sub)).
    + injection H as <- <-. exists 1. split; [lia|]. reflexivity.
    + destruct (IH _ H) as [n [Hn ->]]. exists (S n). split; [lia|].
      simpl. rewrite <- app_assoc. reflexivity.
Qed.

(** C2. A decoded message whose [metadata.message_type] is
    ["session_welcome"] and whose [payload.session.id] is [session_id],
    handled with [n] subscriptions registered and an API client that
    accepts their requests: the requests sent grow by exactly [n], the
    [i]-th of them carrying the type, version and condition of the [i]-th
    subscription and the transport [{method: "websocket", session_id}];
    nothing else of the manager changes. *)
Theorem welcome_requests_each_subscription msg s session_id :
  message_type_of msg = ok (JStr "session_welcome") ->
  session_id_of msg = ok session_id ->
  (forall sent sub, In sub (_subscriptions s) ->
     api sent (subscription_request session_id sub) = None) ->
  let sent' := eventsub_requests s
               ++ List.map (subscription_request session_id) (_subscriptions s) in
  _handle_json_message api msg s = (ok tt, set_requests sent' s) /\
  length sent' = length (eventsub_requests s) + length (_subscriptions s) /\
  forall i sub, _subscriptions s !! i = Some sub ->
    sent' !! (length (eventsub_requests s) + i)
    = Some (JDict [("type", JStr (type sub));
                   ("version", JStr (version sub));
                   ("condition", condition sub);
                   ("transport", JDict [("method", JStr "websocket");
                                        ("session_id", session_id)])]).
Proof.
  intros Hmt Hsid Hacc sent'. split; [|split].
  - unfold _handle_json_message. rewrite Hmt. unfold ok at 1. cbv iota beta.
    change (eq_str (JStr "session_welcome") "session_welcome") with true.
    cbv iota. rewrite Hsid. unfold ok at 1. cbv iota beta.
    rewrite request_each_accepted by assumption. reflexivity.
  - unfold sent'. rewrite length_app, length_map. reflexivity.
  - intros i sub Hi. unfold sent'.
    rewrite lookup_app_r by lia.
    replace (length (eventsub_requests s) + i - length (eventsub_requests s)) with i
      by lia.
    rewrite list_lookup_fmap_Some. exists sub. split; [reflexivity|assumption].
Qed.

(** The same, from the text received: [json.loads] returns the message and
    the thread stays in its receive loop. *)
Lemma welcome_text_keeps_receiving t c text msg s session_id :
  threads s !! t = Some (InRecv c) ->
  json_loads text = ok msg ->
  message_type_of msg = ok (JStr "session_welcome") ->
  session_id_of msg = ok session_id ->
  (forall sent sub, In sub (_subscriptions s) ->
     api sent (subscription_request session_id sub) = None) ->
  thread_step t (Recv (ok (Text text))) s
  = Some (set_requests
            (eventsub_requests s
             ++ List.map (subscription_request session_id) (_subscriptions s)) s).
Proof.
  intros Hpc Hjson Hmt Hsid Hacc.
  pose proof (request_each_accepted session_id (_subscriptions s)
                (eventsub_requests s) Hacc) as Hreq.
  unfold EventSub.thread_step. rewrite Hpc.
  unfold _handle_client_turn, ok, _handle_raw_message. rewrite Hjson.
  unfold ok, _handle_json_message. rewrite Hmt. unfold ok.
  change (eq_str (JStr "session_welcome") "session_welcome") with true.
  cbv iota. rewrite Hsid. unfold ok. rewrite Hreq. reflexivity.
Qed.

(** ** Sockets *)

Lemma no_leak_open s c pc t :
  inv s -> no_leak s -> threads s !! t = Some pc -> exited pc = false ->
  sockets s !! c = Some SockOpen -> to_close pc = Some c.
Proof.
  intros Hinv Hleak Hpc Hex Hopen.
  destruct (inv_current s t pc Hinv Hpc Hex) as [_ [Hcur _]].
  destruct (Hleak c Hopen) as [pc' [Hcur' Hc]]. congruence.
Qed.

Lemma no_leak_thread_update s s' t pc new :
  inv s -> threads s !! t = Some pc -> exited pc = false ->
  threads s' = <[t := new]> (threads s) -> _thread s' = _thread s ->
  (forall c, sockets s' !! c = Some SockOpen -> to_close new = Some c) ->
  no_leak s'.
Proof.
  intros Hinv Hpc Hex Hth Hthr Hnew c Hopen.
  destruct (inv_current s t pc Hinv Hpc Hex) as [Ht _].
  exists new. split; [|auto].
  unfold current_pc. rewrite Hthr, Ht, Hth. apply list_lookup_insert_eq.
  eapply lookup_lt_Some. eassumption.
Qed.

Lemma no_leak_caller_update s s' :
  no_leak s -> threads s' = threads s -> _thread s' = _thread s ->
  (forall c, sockets s' !! c = Some SockOpen -> sockets s !! c = Some SockOpen) ->
  no_leak s'.
Proof.
  intros Hleak Hth Hthr Hsock c Hopen. unfold current_pc. rewrite Hth, Hthr.
  apply Hleak. auto.
Qed.

Lemma lookup_close_open c c' s :
  sockets (close c s) !! c' = Some SockOpen ->
  sockets s !! c' = Some SockOpen /\ c' <> c.
Proof.
  simpl. intros H. destruct (decide (c = c')) as [<-|Hne].
  - destruct (decide (c < length (sockets s))) as [Hlt|Hge].
    + rewrite list_lookup_insert_eq in H by assumption. discriminate.
    + rewrite list_insert_ge in H by lia.
      apply lookup_lt_Some in H. lia.
  - rewrite list_lookup_insert_ne in H by assumption. auto.
Qed.

Lemma no_leak_none_open s t pc :
  inv s -> no_leak s -> threads s !! t = Some pc -> exited pc = false ->
  to_close pc = None -> forall c, sockets s !! c <> Some SockOpen.
Proof.
  intros Hinv Hleak Hpc Hex Hnone c Hopen.
  pose proof (no_leak_open s c pc t Hinv Hleak Hpc Hex Hopen). congruence.
Qed.

Lemma no_leak_start_thread s :
  inv s -> no_leak s -> no_leak (or_unchanged s (start_thread s)).
Proof.
  intros Hinv Hleak. unfold start_thread.
  destruct (_subscriptions s) as [|sub subs]; simpl; [assumption|].
  destruct (match _thread s with None => true | Some t => negb (is_alive t s) end)
    eqn:Hok; simpl; [|assumption].
  destruct (start_thread_accepts s Hinv Hok) as [Hall _].
  intros c Hopen. simpl in Hopen. exfalso.
  destruct (Hleak c Hopen) as [pc [Hcur Hc]]. unfold current_pc in Hcur.
  destruct (_thread s) as [t|]; [|discriminate].
  specialize (Hall t pc Hcur). destruct pc; discriminate.
Qed.

Lemma no_leak_sys_step l s s' :
  inv s -> no_leak s -> sys_step l s = Some s' -> no_leak s'.
Proof.
  intros Hinv Hleak H. destruct l as [ty v c| | | |t ev|ty v c| | |k].
  - caller_cases H. unfold add_subscription.
    destruct (_thread s); simpl; [assumption|].
    apply (no_leak_caller_update s); auto.
  - caller_cases H. apply no_leak_start_thread; assumption.
  - caller_cases H. apply (no_leak_caller_update s); auto.
  - caller_cases H.
    + destruct client as [c|]; apply (no_leak_caller_update s); auto.
      intros c' Hopen. apply (lookup_close_open c c' s). exact Hopen.
    + apply (no_leak_caller_update s); auto.
    + apply (no_leak_caller_update s); auto.
    + apply (no_leak_caller_update s); auto.
  - thread_cases H.
    all: try (destruct (inv_current s t _ Hinv Hpc eq_refl) as [Ht [Hcur Hcl]];
              simpl in Hcl).
    all: try rewrite Hcl.
    all: try (rewrite Hfields; clear Hfields Hturn).
    all: try destruct (_should_stop s) eqn:Hflag.
    all: try destruct pending.
    all: eapply (no_leak_thread_update s _ t _ _ Hinv Hpc eq_refl);
      [ simpl; first [reflexivity | symmetry; apply list_insert_id; exact Hpc]
      | reflexivity
      | intros c' Hopen ].
    all: try (apply lookup_close_open in Hopen as [Hopen Hne]).
    all: try (simpl in Hopen; apply lookup_app_Some in Hopen as [Hopen|[Hge Hopen]];
              [|apply list_lookup_singleton_Some in Hopen as [Hz _];
                simpl; f_equal; lia]).
    all: pose proof (no_leak_open s c' _ t Hinv Hleak Hpc eq_refl Hopen) as Hc;
      simpl in Hc; try discriminate Hc; try (injection Hc as ->; try congruence);
      try reflexivity.
  - other_cases H. unfold add_subscription.
    destruct (_thread s); simpl; [assumption|].
    apply (no_leak_caller_update s); auto.
  - other_cases H. apply no_leak_start_thread; assumption.
  - other_cases H. apply (no_leak_caller_update s); auto.
  - other_cases H.
    + destruct client as [c|]; apply (no_leak_caller_update s); auto.
      intros c' Hopen. apply (lookup_close_open c c' s). exact Hopen.
    + apply (no_leak_caller_update s); auto.
    + apply (no_leak_caller_update s); auto.
    + apply (no_leak_caller_update s); auto.
Qed.

Lemma reachable_no_leak s : reachable s -> no_leak s.
Proof.
  induction 1 as [|s s' Hr IH [l Hl]].
  - intros c H. simpl in H. rewrite lookup_nil in H. discriminate.
  - eapply no_leak_sys_step; [apply reachable_inv| |]; eassumption.
Qed.

(** An open socket is the one the live thread of [_thread] still has to
    close; so at most one socket is open at a time, and once every thread
    has exited every socket is closed and no client is current. *)
Theorem open_socket_is_held s :
  reachable s ->
  (forall c, sockets s !! c = Some SockOpen ->
     exists t pc, _thread s = Some t /\ threads s !! t = Some pc /\
                  to_close pc = Some c /\ is_alive t s = true) /\
  (forall c1 c2, sockets s !! c1 = Some SockOpen ->
                 sockets s !! c2 = Some SockOpen -> c1 = c2) /\
  (all_exited s -> all_closed s /\ _client s = None).
Proof.
  intros Hr. pose proof (reachable_inv s Hr) as Hinv.
  pose proof (reachable_no_leak s Hr) as Hleak.
  assert (Hheld : forall c, sockets s !! c = Some SockOpen ->
            exists t pc, _thread s = Some t /\ threads s !! t = Some pc /\
                         to_close pc = Some c /\ is_alive t s = true).
  { intros c Hopen. destruct (Hleak c Hopen) as [pc [Hcur Hc]].
    unfold current_pc in Hcur. destruct (_thread s) as [t|] eqn:Ht; [|discriminate].
    exists t, pc. repeat split; try assumption.
    unfold is_alive. rewrite Hcur. destruct pc; try discriminate; reflexivity. }
  split; [exact Hheld|]. split.
  - intros c1 c2 H1 H2.
    destruct (Hheld c1 H1) as [t1 [pc1 [Ht1 [Hpc1 [Hc1 _]]]]].
    destruct (Hheld c2 H2) as [t2 [pc2 [Ht2 [Hpc2 [Hc2 _]]]]].
    congruence.
  - intros Hall. split.
    + intros c st Hc. destruct st; [exfalso|reflexivity].
      destruct (Hheld c Hc) as [t [pc [_ [Hpc [_ Halive]]]]].
      unfold is_alive in Halive. rewrite Hpc, (Hall t pc Hpc) in Halive. discriminate.
    + rewrite (inv_client s Hinv). destruct (current_pc s) as [pc|] eqn:Hcur;
        [|reflexivity].
      unfold current_pc in Hcur. destruct (_thread s) as [t|]; [|discriminate].
      specialize (Hall t pc Hcur). destruct pc; try discriminate. reflexivity.
Qed.

(** When [stop_thread] returns, by whatever step the caller comes back
    from it, every socket the instance has opened is closed, no client is
    current and the stop flag is set; the thread it joined has exited,
    and a thread that is alive was started since by another caller and
    has not passed its first test of the flag. *)
Theorem stop_thread_returns_all_closed s l s' :
  reachable s -> caller s <> Idle -> sys_step l s = Some s' -> caller s' = Idle ->
  all_closed s' /\ _client s' = None /\ _should_stop s' = true /\
  (exists th, caller s = StopJoin th /\
              forall t, th = Some t -> is_alive t s' = false) /\
  (forall t pc, threads s' !! t = Some pc -> pc = AtCreate \/ exited pc = true).
Proof.
  intros Hr Hin H Hout. pose proof (reachable_inv s Hr) as Hinv.
  assert (Hr' : reachable s')
    by (eapply reachable_step; [eassumption|]; exists l; assumption).
  pose proof (reachable_inv s' Hr') as Hinv'.
  pose proof (reachable_no_leak s' Hr') as Hleak'.
  assert (Hflag : _should_stop s' = true).
  { eapply sys_step_should_stop; [eassumption|]. apply (inv_stopping s Hinv Hin). }
  destruct (caller_returns l s s' Hin H Hout) as [th [-> [Hc Hjoin]]].
  assert (Hdead : forall t, th = Some t -> is_alive t s' = false).
  { intros t ->. unfold stop_thread_join in Hjoin.
    destruct (is_alive t s) eqn:Ha; [discriminate|]. injection Hjoin as <-. exact Ha. }
  assert (Hj : joining th s').
  { pose proof (inv_join s Hinv th Hc) as Hj. unfold stop_thread_join in Hjoin.
    destruct th as [t|]; [destruct (is_alive t s); [discriminate|]|];
      injection Hjoin as <-; exact Hj. }
  destruct (joined_is_spent s' th Hinv' Hj Hflag Hdead) as [[_ Hall] Hcl].
  split; [|split; [exact Hcl|split; [exact Hflag|split; [eauto|exact Hall]]]].
  intros c st Hst. destruct st; [exfalso|reflexivity].
  destruct (Hleak' c Hst) as [pc [Hcur Hto]].
  unfold current_pc in Hcur. destruct (_thread s') as [t|]; [|discriminate].
  destruct (Hall t pc Hcur) as [->|Hex]; [discriminate|].
  destruct pc; discriminate.
Qed.

(** ** Threads *)

(** At most one background thread is alive. While one is, [start_thread]
    fails its second assertion; with no subscription registered it fails
    its first; a failed call changes nothing. *)
Theorem one_thread_alive s :
  reachable s ->
  (forall t1 t2, is_alive t1 s = true -> is_alive t2 s = true -> t1 = t2) /\
  (forall t, is_alive t s = true ->
     start_thread s = raise (AssertionError "thread must not be already running") /\
     sys_step Call_start_thread s = (if caller_idle s then Some s else None)) /\
  (_subscriptions s = [] ->
     start_thread s = raise (AssertionError "at least one subscription is required") /\
     _thread s = None).
Proof.
  intros Hr. pose proof (reachable_inv s Hr) as Hinv.
  assert (Hcur : forall t, is_alive t s = true -> _thread s = Some t).
  { intros t Ht. unfold is_alive in Ht.
    destruct (threads s !! t) as [pc|] eqn:Hpc; [|discriminate].
    apply (inv_alive s Hinv t pc Hpc). destruct (exited pc); [discriminate|reflexivity]. }
  split; [|split].
  - intros t1 t2 H1 H2. apply Hcur in H1. apply Hcur in H2. congruence.
  - intros t Ht. pose proof (Hcur t Ht) as Hthr.
    assert (Hstart : start_thread s
                     = raise (AssertionError "thread must not be already running")).
    { unfold start_thread.
      destruct (_subscriptions s) eqn:Hsubs.
      - exfalso. apply (inv_subscribed s Hinv); congruence.
      - rewrite Hthr, Ht. reflexivity. }
    split; [assumption|]. cbn. rewrite Hstart. reflexivity.
  - intros Hsubs. split; [unfold start_thread; rewrite Hsubs; reflexivity|].
    destruct (_thread s) eqn:Ht; [|reflexivity].
    exfalso. apply (inv_subscribed s Hinv); congruence.
Qed.

(** The two assertions of [_maybe_create_client] hold whenever they are
    run: a thread that is about to connect, is connecting, or has just
    connected finds [_client] to be [None], so its step is the test of the
    stop flag. *)
Theorem maybe_create_client_asserts_hold s t :
  reachable s ->
  (threads s !! t = Some AtCreate ->
     _client s = None /\
     thread_step t Tau s
     = Some (if _should_stop s then set_pc t (Exited None) s
             else set_pc t Connecting s)) /\
  (threads s !! t = Some Connecting -> _client s = None) /\
  (forall c, threads s !! t = Some (Connected c) ->
     _client s = None /\
     thread_step t Tau s
     = Some (if _should_stop s then set_pc t (Exited None) (close c s)
             else set_pc t (InRecv c) (set_client (Some c) s))).
Proof.
  intros Hr. pose proof (reachable_inv s Hr) as Hinv. split; [|split].
  - intros Hpc. destruct (inv_current s t _ Hinv Hpc eq_refl) as [_ [_ Hcl]].
    simpl in Hcl. split; [assumption|].
    unfold EventSub.thread_step. rewrite Hpc, Hcl. reflexivity.
  - intros Hpc. destruct (inv_current s t _ Hinv Hpc eq_refl) as [_ [_ Hcl]].
    exact Hcl.
  - intros c Hpc. destruct (inv_current s t _ Hinv Hpc eq_refl) as [_ [_ Hcl]].
    simpl in Hcl. split; [assumption|].
    unfold EventSub.thread_step. rewrite Hpc, Hcl. reflexivity.
Qed.

Lemma sys_step_subscriptions l s s' :
  sys_step l s = Some s' -> _thread s <> None -> _subscriptions s' = _subscriptions s.
Proof.
  intros H Hs. destruct l as [ty v c| | | |t ev|ty v c| | |k].
  - caller_cases H. unfold add_subscription.
    destruct (_thread s) eqn:E; simpl; [reflexivity|congruence].
  - caller_cases H. unfold start_thread.
    destruct (_subscriptions s) eqn:E; simpl; [assumption|].
    destruct (match _thread s with Some t => _ | None => _ end); simpl; assumption.
  - caller_cases H. reflexivity.
  - caller_cases H; try reflexivity. destruct client; reflexivity.
  - thread_cases H; try rewrite Hfields; simpl; break_goal; reflexivity.
  - other_cases H. unfold add_subscription.
    destruct (_thread s) eqn:E; simpl; [reflexivity|congruence].
  - other_cases H. unfold start_thread.
    destruct (_subscriptions s) eqn:E; simpl; [assumption|].
    destruct (match _thread s with Some t => _ | None => _ end); simpl; assumption.
  - other_cases H. reflexivity.
  - other_cases H; try reflexivity. destruct client; reflexivity.
Qed.

(** Once a thread has been started the subscriptions are fixed: in every
    later state [_thread] is still set and the list is the one the first
    [start_thread] found. *)
Theorem subscriptions_fixed_after_start s s' :
  _thread s <> None -> later s s' ->
  _thread s' <> None /\ _subscriptions s' = _subscriptions s.
Proof.
  intros Hs. induction 1 as [|s' s'' _ [IHt IHs] [l Hl]]; [auto|].
  split.
  - eapply sys_step_thread_started; eassumption.
  - rewrite <- IHs. eapply sys_step_subscriptions; eassumption.
Qed.

(** The caller never assigns [_client]: none of its steps, in
    [add_subscription], [start_thread] or [stop_thread], changes it. *)
Theorem caller_never_assigns_client l s s' :
  (forall t ev, l <> Thread t ev) -> sys_step l s = Some s' ->
  _client s' = _client s.
Proof.
  intros Hl H. destruct l as [ty v c| | | |t ev|ty v c| | |k].
  - caller_cases H. unfold add_subscription. destruct (_thread s); reflexivity.
  - caller_cases H. unfold start_thread.
    destruct (_subscriptions s); [reflexivity|].
    destruct (match _thread s with Some t => _ | None => _ end); reflexivity.
  - caller_cases H. reflexivity.
  - caller_cases H; try reflexivity. destruct client; reflexivity.
  - exfalso. apply (Hl t ev). reflexivity.
  - other_cases H. unfold add_subscription. destruct (_thread s); reflexivity.
  - other_cases H. unfold start_thread.
    destruct (_subscriptions s); [reflexivity|].
    destruct (match _thread s with Some t => _ | None => _ end); reflexivity.
  - other_cases H. reflexivity.
  - other_cases H; try reflexivity. destruct client; reflexivity.
Qed.

(** ** Messages *)

(** An exception that leaves the receive loop, raised by [recv] (other than
    the two closures), by [json.loads] or while the message is handled,
    is not caught: the thread closes the socket, clears [_client] and
    exits with that exception; the requests already sent stay sent. *)
Theorem exception_in_receive_loop_ends_thread s t c r e s1 :
  reachable s ->
  threads s !! t = Some (InRecv c) ->
  _handle_client_turn json_loads api r s = (Some (Some e), s1) ->
  exists s3,
    run [Thread t (Recv r); Thread t Tau; Thread t Tau] s = Some s3 /\
    threads s3 !! t = Some (Exited (Some e)) /\
    (forall ev, thread_step t ev s3 = None) /\
    _client s3 = None /\
    sockets s3 !! c = Some SockClosed /\
    eventsub_requests s3 = eventsub_requests s1 /\
    _subscriptions s3 = _subscriptions s /\
    _should_stop s3 = _should_stop s /\
    _thread s3 = _thread s /\ caller s3 = caller s.
Proof.
  intros Hr Hpc Hturn. pose proof (reachable_inv s Hr) as Hinv.
  pose proof (handle_client_turn_fields _ _ _ _ Hturn) as Hfields.
  assert (Hlt : t < length (threads s)) by (eapply lookup_lt_Some; eassumption).
  assert (Hc : c < length (sockets s))
    by (eapply (inv_socket s Hinv); [eassumption|reflexivity]).
  set (s1' := set_pc t (FinallyClose c (Some e)) s1).
  set (s2 := set_pc t (FinallyClear c (Some e)) (close c s1')).
  set (s3 := set_pc t (Exited (Some e)) (set_client None s2)).
  assert (H1 : thread_step t (Recv r) s = Some s1')
    by (unfold EventSub.thread_step; rewrite Hpc, Hturn; reflexivity).
  assert (Hpc1 : threads s1' !! t = Some (FinallyClose c (Some e)))
    by (apply lookup_set_pc; rewrite Hfields; assumption).
  assert (H2 : thread_step t Tau s1' = Some s2)
    by (apply step_finally_close; assumption).
  assert (Hpc2 : threads s2 !! t = Some (FinallyClear c (Some e)))
    by (apply lookup_set_pc; simpl; rewrite length_insert, Hfields; assumption).
  assert (H3 : thread_step t Tau s2 = Some s3)
    by (apply (step_finally_clear t c (Some e)); assumption).
  assert (Hpc3 : threads s3 !! t = Some (Exited (Some e)))
    by (apply lookup_set_pc; simpl; rewrite !length_insert, Hfields; assumption).
  exists s3. split.
  { cbn [EventSub.run EventSub.sys_step]. rewrite H1, H2, H3. reflexivity. }
  split; [assumption|].
  split; [intros ev; eapply step_exited; eassumption|].
  split; [reflexivity|].
  split; [simpl; apply list_lookup_insert_eq; rewrite Hfields; assumption|].
  split; [reflexivity|].
  simpl. rewrite Hfields. repeat split.
Qed.

(** A message whose [message_type] is not ["session_welcome"] is dropped:
    nothing is sent, nothing changes, and the thread stays in its receive
    loop. *)
Theorem other_message_types_are_dropped s t c text msg message_type :
  json_loads text = ok msg ->
  message_type_of msg = ok message_type ->
  eq_str message_type "session_welcome" = false ->
  _handle_json_message api msg s = (ok tt, s) /\
  (threads s !! t = Some (InRecv c) ->
   thread_step t (Recv (ok (Text text))) s = Some s).
Proof.
  intros Hjson Hmt Hne.
  assert (H : _handle_json_message api msg s = (ok tt, s)).
  { unfold _handle_json_message. rewrite Hmt. unfold ok at 1. cbv iota beta.
    rewrite Hne. reflexivity. }
  split; [assumption|]. intros Hpc.
  unfold EventSub.thread_step. rewrite Hpc.
  unfold _handle_client_turn, ok, _handle_raw_message. rewrite Hjson.
  unfold ok. rewrite H. reflexivity.
Qed.

(** A decoded message of the wrong shape raises before anything is sent:
    [TypeError] when it is no object, [KeyError] when the object has no
    ["metadata"], and, for a welcome message, the error of the lookup of
    [payload.session.id] when that fails. *)
Theorem malformed_message_sends_nothing msg s :
  ((forall d, msg <> JDict d) ->
     _handle_json_message api msg s = (raise (TypeError NotSubscriptable), s)) /\
  (forall d, msg = JDict d -> dict_get "metadata" d = None ->
     _handle_json_message api msg s = (raise (KeyError "metadata"), s)) /\
  (forall e, message_type_of msg = ok (JStr "session_welcome") ->
     session_id_of msg = raise e ->
     _handle_json_message api msg s = (raise e, s)).
Proof.
  split; [|split].
  - intros Hnd. unfold _handle_json_message, message_type_of.
    destruct msg; try reflexivity. exfalso. eapply Hnd. reflexivity.
  - intros d -> Hd. unfold _handle_json_message, message_type_of. simpl.
    rewrite Hd. reflexivity.
  - intros e Hmt Hsid. unfold _handle_json_message. rewrite Hmt.
    unfold ok at 1. cbv iota beta.
    change (eq_str (JStr "session_welcome") "session_welcome") with true.
    cbv iota. rewrite Hsid. reflexivity.
Qed.

Lemma request_each_app session_id subs1 subs2 sent :
  request_each api session_id (subs1 ++ subs2) sent
  = match request_each api session_id subs1 sent with
    | (inr _, sent') => request_each api session_id subs2 sent'
    | (inl e, sent') => (inl e, sent')
    end.
Proof.
  revert sent. induction subs1 as [|x subs1 IH]; simpl; intros sent; [reflexivity|].
  destruct (api sent (subscription_request session_id x)); [reflexivity|apply IH].
Qed.

Lemma request_each_ok session_id subs sent sent' :
  request_each api session_id subs sent = (ok tt, sent') ->
  sent' = sent ++ List.map (subscription_request session_id) subs.
Proof.
  revert sent. induction subs as [|x subs IH]; simpl; intros sent H.
  - injection H as <-. rewrite app_nil_r. reflexivity.
  - destruct (api sent (subscription_request session_id x)); [discriminate|].
    rewrite (IH _ H), <- app_assoc. reflexivity.
Qed.

(** When the API client raises on the request of one subscription, the
    requests of the subscriptions before it have been sent, that request
    has been made, none is made for the subscriptions after it, and the
    exception of the client is raised. *)
Theorem rejected_request_ends_loop session_id before sub after sent sent' e :
  request_each api session_id before sent = (ok tt, sent') ->
  api sent' (subscription_request session_id sub) = Some e ->
  request_each api session_id (before ++ sub :: after) sent
  = (raise e,
     sent ++ List.map (subscription_request session_id) before
          ++ [subscription_request session_id sub]).
Proof.
  intros Hbefore Hrej. rewrite request_each_app, Hbefore. unfold ok. simpl.
  rewrite Hrej. rewrite (request_each_ok _ _ _ _ Hbefore), <- app_assoc. reflexivity.
Qed.

(** ** More on stopping *)

Lemma set_should_stop_idle s :
  caller s = Idle -> set_caller Idle (set_should_stop true s) = set_should_stop true s.
Proof. intros H. destruct s. simpl in *. subst. reflexivity. Qed.

(** With no thread running, because none was started or because the one
    started has exited, [stop_thread] runs to its return without waiting,
    and all it changes is the stop flag, which it sets. *)
Theorem stop_thread_not_running s :
  reachable s -> caller s = Idle ->
  (forall t, _thread s = Some t -> is_alive t s = false) ->
  run [Call_stop_thread; Caller_continue; Caller_continue; Caller_continue] s
  = Some (set_should_stop true s).
Proof.
  intros Hr Hidle Hdead. pose proof (reachable_inv s Hr) as Hinv.
  assert (Hok : match _thread s with None => true | Some t => negb (is_alive t s) end
                = true).
  { destruct (_thread s) as [t|]; [|reflexivity]. rewrite (Hdead t eq_refl). reflexivity. }
  destruct (start_thread_accepts s Hinv Hok) as [_ Hcl].
  set (a1 := stop_thread_flag s).
  set (a2 := stop_thread_close None a1).
  set (a3 := stop_thread_read a2).
  assert (E1 : sys_step Call_stop_thread s = Some a1)
    by (cbn; unfold caller_idle; rewrite Hidle; reflexivity).
  assert (E2 : sys_step Caller_continue a1 = Some a2)
    by (cbn; rewrite Hcl; reflexivity).
  assert (E3 : sys_step Caller_continue a2 = Some a3) by reflexivity.
  assert (E4 : sys_step Caller_continue a3 = Some (set_caller Idle a3)).
  { cbn. unfold stop_thread_join. destruct (_thread s) as [t|] eqn:Ht; [|reflexivity].
    change (is_alive t a3) with (is_alive t s).
    rewrite (Hdead t eq_refl). reflexivity. }
  cbn [EventSub.run]. rewrite E1, E2, E3, E4. f_equal.
  destruct s. simpl in *. subst. reflexivity.
Qed.

(** [stop_thread] called while a client is current: its first two parts
    set the flag and close that client, leaving [_client] for the thread
    to clear; its third part brings the caller to the [join] of the
    thread of [_thread], which is alive; and the caller, standing at that
    [join], has no step for as long as the thread is alive. *)
Theorem stop_thread_closes_current_client s c :
  reachable s -> caller s = Idle -> _client s = Some c ->
  exists s2 t,
    run [Call_stop_thread; Caller_continue] s = Some s2 /\
    sockets s2 !! c = Some SockClosed /\
    _should_stop s2 = true /\ _client s2 = Some c /\
    _thread s2 = Some t /\ is_alive t s2 = true /\
    run [Caller_continue] s2 = Some (stop_thread_read s2) /\
    caller (stop_thread_read s2) = StopJoin (Some t) /\
    sys_step Caller_continue (stop_thread_read s2) = None /\
    (forall s3, caller s3 = StopJoin (Some t) -> is_alive t s3 = true ->
       sys_step Caller_continue s3 = None).
Proof.
  intros Hr Hidle Hcl. pose proof (reachable_inv s Hr) as Hinv.
  pose proof (inv_client s Hinv) as Hc. rewrite Hcl in Hc.
  unfold current_pc in Hc. destruct (_thread s) as [t|] eqn:Ht; [|discriminate].
  destruct (threads s !! t) as [pc|] eqn:Hpc; [|discriminate].
  assert (Hholds : holds pc = Some c) by (destruct pc; try discriminate; exact (eq_sym Hc)).
  assert (Hex : exited pc = false) by (destruct pc; try discriminate; reflexivity).
  assert (Hlt : c < length (sockets s)) by (eapply (inv_socket s Hinv); eassumption).
  exists (stop_thread_close (Some c) (stop_thread_flag s)), t.
  split.
  { cbn [EventSub.run EventSub.sys_step]. unfold caller_idle. rewrite Hidle.
    cbn. rewrite Hcl. reflexivity. }
  split; [simpl; apply list_lookup_insert_eq; assumption|].
  split; [reflexivity|]. split; [assumption|]. split; [assumption|].
  assert (Halive : forall s2, threads s2 = threads s -> is_alive t s2 = true)
    by (intros s2 E; unfold is_alive; rewrite E, Hpc, Hex; reflexivity).
  split; [apply Halive; reflexivity|].
  split; [reflexivity|].
  split; [simpl; rewrite Ht; reflexivity|].
  assert (Hblocked : forall s3, caller s3 = StopJoin (Some t) ->
                                is_alive t s3 = true ->
                                sys_step Caller_continue s3 = None).
  { intros s3 Hc3 Ha3. unfold EventSub.sys_step. rewrite Hc3.
    unfold stop_thread_join. rewrite Ha3. reflexivity. }
  split; [|exact Hblocked].
  apply Hblocked; [simpl; rewrite Ht; reflexivity|].
  apply Halive. reflexivity.
Qed.

Lemma run_app ls1 ls2 s :
  run (ls1 ++ ls2) s
  = match run ls1 s with
    | Some s' => run ls2 s'
    | None => None
    end.
Proof.
  revert s. induction ls1 as [|l ls1 IH]; simpl; intros s; [reflexivity|].
  destruct (sys_step l s); [apply IH|reflexivity].
Qed.

(** [stop_thread] on a thread in [recv], when closing the socket makes
    [recv] raise [ConnectionClosedOK]: the thread leaves the loop, closes
    and clears the client, finds the flag set and exits; [join] returns;
    every thread has exited and every socket is closed. *)
Theorem stop_thread_while_receiving s t c :
  reachable s -> caller s = Idle -> threads s !! t = Some (InRecv c) ->
  exists s',
    run [Call_stop_thread; Caller_continue;
         Thread t (Recv (raise ConnectionClosedOK));
         Thread t Tau; Thread t Tau; Thread t Tau;
         Caller_continue; Caller_continue] s = Some s' /\
    threads s' !! t = Some (Exited None) /\
    caller s' = Idle /\ _client s' = None /\ _should_stop s' = true /\
    all_exited s' /\ all_closed s'.
Proof.
  intros Hr Hidle Hpc. pose proof (reachable_inv s Hr) as Hinv.
  destruct (inv_current s t _ Hinv Hpc eq_refl) as [Ht [_ Hcl]]. simpl in Hcl.
  assert (Hlt : t < length (threads s)) by (eapply lookup_lt_Some; eassumption).
  set (a1 := stop_thread_flag s).
  set (a2 := stop_thread_close (Some c) a1).
  set (b1 := set_pc t (FinallyClose c None) a2).
  set (b2 := set_pc t (FinallyClear c None) (close c b1)).
  set (b3 := set_pc t AtCreate (set_client None b2)).
  set (b4 := set_pc t (Exited None) b3).
  set (a3 := stop_thread_read b4).
  set (a4 := set_caller Idle a3).
  assert (E1 : sys_step Call_stop_thread s = Some a1)
    by (cbn; unfold caller_idle; rewrite Hidle; reflexivity).
  assert (E2 : sys_step Caller_continue a1 = Some a2)
    by (cbn; rewrite Hcl; reflexivity).
  assert (E3 : thread_step t (Recv (raise ConnectionClosedOK)) a2 = Some b1)
    by (apply step_recv_closed; [simpl; rewrite length_insert || idtac; assumption
                                |now left]).
  assert (P1 : threads b1 !! t = Some (FinallyClose c None))
    by (apply lookup_set_pc; assumption).
  assert (E4 : thread_step t Tau b1 = Some b2) by (apply step_finally_close; assumption).
  assert (P2 : threads b2 !! t = Some (FinallyClear c None))
    by (apply lookup_set_pc; simpl; rewrite length_insert; assumption).
  assert (E5 : thread_step t Tau b2 = Some b3)
    by (apply (step_finally_clear t c None); assumption).
  assert (P3 : threads b3 !! t = Some AtCreate)
    by (apply lookup_set_pc; simpl; rewrite !length_insert; assumption).
  assert (E6 : thread_step t Tau b3 = Some b4)
    by (apply step_create_refuses; [assumption|reflexivity|reflexivity]).
  assert (P4 : threads b4 !! t = Some (Exited None))
    by (apply lookup_set_pc; simpl; rewrite !length_insert; assumption).
  assert (E7 : sys_step Caller_continue b4 = Some a3) by reflexivity.
  assert (E8 : sys_step Caller_continue a3 = Some a4).
  { assert (Hdead : is_alive t a3 = false).
    { unfold is_alive. change (threads a3) with (threads b4). rewrite P4. reflexivity. }
    unfold EventSub.sys_step. change (caller a3) with (StopJoin (_thread s)).
    cbv iota. rewrite Ht. unfold stop_thread_join. rewrite Hdead. reflexivity. }
  assert (Hrun3 : run [Call_stop_thread; Caller_continue;
                       Thread t (Recv (raise ConnectionClosedOK));
                       Thread t Tau; Thread t Tau; Thread t Tau;
                       Caller_continue] s = Some a3).
  { cbn [EventSub.run]. rewrite E1, E2.
    change (EventSub.sys_step json_loads api
              (Thread t (Recv (raise ConnectionClosedOK))) a2)
      with (thread_step t (Recv (raise ConnectionClosedOK)) a2).
    rewrite E3.
    change (EventSub.sys_step json_loads api (Thread t Tau) b1)
      with (thread_step t Tau b1). rewrite E4.
    change (EventSub.sys_step json_loads api (Thread t Tau) b2)
      with (thread_step t Tau b2). rewrite E5.
    change (EventSub.sys_step json_loads api (Thread t Tau) b3)
      with (thread_step t Tau b3). rewrite E6.
    rewrite E7. reflexivity. }
  assert (Hrun : run [Call_stop_thread; Caller_continue;
                      Thread t (Recv (raise ConnectionClosedOK));
                      Thread t Tau; Thread t Tau; Thread t Tau;
                      Caller_continue; Caller_continue] s = Some a4).
  { change [Call_stop_thread; Caller_continue;
            Thread t (Recv (raise ConnectionClosedOK));
            Thread t Tau; Thread t Tau; Thread t Tau;
            Caller_continue; Caller_continue]
      with ([Call_stop_thread; Caller_continue;
             Thread t (Recv (raise ConnectionClosedOK));
             Thread t Tau; Thread t Tau; Thread t Tau;
             Caller_continue] ++ [Caller_continue]).
    rewrite run_app, Hrun3. cbn [EventSub.run]. rewrite E8. reflexivity. }
  assert (Hr3 : reachable a3) by exact (run_reachable _ s a3 Hr Hrun3).
  assert (Hr4 : reachable a4) by exact (run_reachable _ s a4 Hr Hrun).
  pose proof (reachable_inv a3 Hr3) as Hinv3.
  pose proof (reachable_inv a4 Hr4) as Hinv4.
  pose proof (reachable_no_leak a4 Hr4) as Hleak4.
  assert (Hjoin : stop_thread_join (_thread b4) a3 = Some a4) by exact E8.
  destruct (stop_thread_join_exited a3 (_thread b4) a4 Hinv3 eq_refl Hjoin)
    as [_ Hall].
  exists a4. split; [exact Hrun|]. split; [exact P4|].
  split; [reflexivity|]. split; [reflexivity|]. split; [reflexivity|].
  split; [exact Hall|].
  intros c' st Hst. destruct st; [exfalso|reflexivity].
  destruct (Hleak4 c' Hst) as [pc [Hcur Hto]].
  unfold current_pc in Hcur. destruct (_thread a4) as [t'|]; [|discriminate].
  specialize (Hall t' pc Hcur). destruct pc; discriminate.
Qed.

End Steps.

(** ** The scenarios *)

(** With a client that rejects every request the loop ends at the first
    subscription: one request made, the exception of the client raised. *)
Lemma welcome_rejected_stops_at_first :
  _handle_json_message Scenario.api_rejects (Scenario.welcome "S1") Scenario.registered
  = (raise (ExternalError "401 Unauthorized"),
     set_requests
       [subscription_request (JStr "S1")
          (Subscription "channel.follow" "2" Scenario.follow_condition)]
       Scenario.registered).
Proof. vm_compute. reflexivity. Qed.

Lemma reachable_registered :
  reachable Scenario.json_loads Scenario.api_accepts Scenario.registered.
Proof.
  apply (run_reachable _ _ Scenario.add_two init); [apply reachable_init|].
  vm_compute. reflexivity.
Qed.

Lemma reachable_receiving :
  reachable Scenario.json_loads Scenario.api_accepts Scenario.receiving.
Proof.
  apply (run_reachable _ _ Scenario.to_receiving init); [apply reachable_init|].
  vm_compute. reflexivity.
Qed.

Lemma reachable_stop_mid_connect :
  reachable Scenario.json_loads Scenario.api_accepts Scenario.stop_mid_connect.
Proof.
  apply (run_reachable _ _ Scenario.to_stop_mid_connect init);
    [apply reachable_init|].
  vm_compute. reflexivity.
Qed.

Lemma reachable_stopped :
  reachable Scenario.json_loads Scenario.api_accepts Scenario.stopped.
Proof.
  apply (run_reachable _ _ Scenario.to_stopped init); [apply reachable_init|].
  vm_compute. reflexivity.
Qed.

Lemma welcome_requests_each_subscription_witness :
  (message_type_of (Scenario.welcome "S1") = ok (JStr "session_welcome") /\
   session_id_of (Scenario.welcome "S1") = ok (JStr "S1") /\
   length (_subscriptions Scenario.registered) = 2)
  /\ fst (_handle_json_message Scenario.api_accepts (Scenario.welcome "S1")
            Scenario.registered) = ok tt
  /\ length (eventsub_requests
               (snd (_handle_json_message Scenario.api_accepts (Scenario.welcome "S1")
                       Scenario.registered))) = 2.
Proof.
  split; [repeat split|].
  pose proof (welcome_requests_each_subscription Scenario.api_accepts
                (Scenario.welcome "S1") Scenario.registered (JStr "S1")
                eq_refl eq_refl (fun _ _ _ => eq_refl)) as H.
  cbv zeta in H. destruct H as [H _]. rewrite H. split; reflexivity.
Defined.


Lemma closure_then_reconnect_witness :
  (reachable Scenario.json_loads Scenario.api_accepts Scenario.receiving /\
   threads Scenario.receiving !! 0 = Some (InRecv 0) /\
   _should_stop Scenario.receiving = false)
  /\ exists s4,
       run Scenario.json_loads Scenario.api_accepts
         [Thread 0 (Recv (raise ConnectionClosedOK)); Thread 0 Tau; Thread 0 Tau;
          Thread 0 Tau] Scenario.receiving = Some s4
       /\ threads s4 !! 0 = Some Connecting /\ _client s4 = None.
Proof.
  split; [split; [exact reachable_receiving | split; reflexivity]|].
  destruct (closure_then_reconnect Scenario.json_loads Scenario.api_accepts
              Scenario.receiving 0 0 (raise ConnectionClosedOK)
              reachable_receiving eq_refl eq_refl (or_introl eq_refl))
    as [s1 [s2 [s3 [s4 [s5 H]]]]].
  exists s4. decompose [and] H. repeat split; assumption.
Defined.

(** C7, as the document has it, fails: after a binary frame the thread has
    left the receive loop and exited, with the [TypeError]. *)
Lemma binary_message_ends_thread :
  run Scenario.json_loads Scenario.api_accepts Scenario.to_binary_handled init
  = Some Scenario.binary_handled
  /\ threads Scenario.binary_handled !! 0
     = Some (Exited (Some (TypeErrorMsg "unsupported message type: <class 'bytes'>")))
  /\ is_alive 0 Scenario.binary_handled = false
  /\ _thread Scenario.binary_handled = Some 0.
Proof. vm_compute. repeat split. Qed.

Lemma binary_message_raises_and_ends_thread_witness :
  (reachable Scenario.json_loads Scenario.api_accepts Scenario.receiving /\
   threads Scenario.receiving !! 0 = Some (InRecv 0))
  /\ exists s3,
       run Scenario.json_loads Scenario.api_accepts
         [Thread 0 (Recv (ok (Binary [Byte.x00]))); Thread 0 Tau; Thread 0 Tau]
         Scenario.receiving = Some s3
       /\ is_alive 0 s3 = false.
Proof.
  split; [split; [exact reachable_receiving | reflexivity]|].
  destruct (binary_message_raises_and_ends_thread Scenario.json_loads
              Scenario.api_accepts Scenario.receiving 0 0 [Byte.x00]
              reachable_receiving eq_refl) as [_ [s3 H]].
  exists s3. decompose [and] H. split; assumption.
Defined.

(** C8. Once a thread has been started, [add_subscription] raises the
    [TypeError] of calling [NotImplemented], not [NotImplementedError]
    with the text written in the [raise]; before, it appends. *)
Theorem add_subscription_after_start_raises_TypeError :
  _thread Scenario.receiving = Some 0 /\
  add_subscription "channel.ban" "1" Scenario.subscribe_condition Scenario.receiving
  = raise (TypeError NotCallable) /\
  add_subscription "channel.ban" "1" Scenario.subscribe_condition Scenario.receiving
  <> raise (NotImplementedError "dynamic subscriptions are not yet implemented") /\
  add_subscription "channel.ban" "1" Scenario.subscribe_condition Scenario.registered
  = ok (set_subscriptions
          (_subscriptions Scenario.registered
           ++ [Subscription "channel.ban" "1" Scenario.subscribe_condition])
          Scenario.registered).
Proof. repeat split. discriminate. Qed.

Lemma stopped_instance_is_single_use_witness :
  (reachable Scenario.json_loads Scenario.api_accepts Scenario.stopped /\
   _should_stop Scenario.stopped = true /\ caller Scenario.stopped = Idle /\
   _thread Scenario.stopped = Some 0 /\ is_alive 0 Scenario.stopped = false)
  /\ exists s1,
       start_thread Scenario.stopped = ok s1
       /\ thread_step Scenario.json_loads Scenario.api_accepts 1 Tau s1
          = Some (set_pc 1 (Exited None) s1).
Proof.
  assert (Hstopped : _should_stop Scenario.stopped = true /\
                     caller Scenario.stopped = Idle /\
                     _thread Scenario.stopped = Some 0 /\
                     is_alive 0 Scenario.stopped = false)
    by (vm_compute; repeat split).
  split; [split; [exact reachable_stopped | exact Hstopped]|].
  destruct Hstopped as [Hflag [Hidle [Ht Halive]]].
  destruct (stopped_instance_is_single_use Scenario.json_loads Scenario.api_accepts
              Scenario.stopped 0 reachable_stopped Hflag Hidle Ht Halive)
    as [_ [s1 H]].
  exists s1. decompose [and] H. split; assumption.
Defined.

(** ** The scenarios, continued *)

Lemma reachable_joining :
  reachable Scenario.json_loads Scenario.api_accepts Scenario.joining.
Proof.
  apply (run_reachable _ _ Scenario.to_joining init); [apply reachable_init|].
  vm_compute. reflexivity.
Qed.

Lemma reachable_receiving_both :
  reachable Scenario.json_loads_both Scenario.api_accepts Scenario.receiving.
Proof.
  apply (run_reachable _ _ Scenario.to_receiving init); [apply reachable_init|].
  vm_compute. reflexivity.
Qed.

Lemma open_socket_is_held_witness :
  reachable Scenario.json_loads Scenario.api_accepts Scenario.receiving
  /\ forall c, sockets Scenario.receiving !! c = Some SockOpen -> c = 0.
Proof.
  split; [exact reachable_receiving|]. intros c Hc.
  apply (proj1 (proj2 (open_socket_is_held Scenario.json_loads Scenario.api_accepts
                         Scenario.receiving reachable_receiving)) c 0 Hc).
  reflexivity.
Defined.

Lemma stop_thread_returns_all_closed_witness :
  (reachable Scenario.json_loads Scenario.api_accepts Scenario.joining /\
   caller Scenario.joining <> Idle /\
   sys_step Scenario.json_loads Scenario.api_accepts Caller_continue Scenario.joining
   = Some Scenario.stopped /\
   caller Scenario.stopped = Idle)
  /\ all_closed Scenario.stopped /\ _client Scenario.stopped = None.
Proof.
  assert (Hc : caller Scenario.joining <> Idle) by (vm_compute; discriminate).
  assert (Hs : sys_step Scenario.json_loads Scenario.api_accepts Caller_continue
                 Scenario.joining = Some Scenario.stopped) by (vm_compute; reflexivity).
  assert (Hi : caller Scenario.stopped = Idle) by (vm_compute; reflexivity).
  split; [split; [exact reachable_joining
                 | split; [exact Hc | split; [exact Hs | exact Hi]]]|].
  destruct (stop_thread_returns_all_closed Scenario.json_loads Scenario.api_accepts
              Scenario.joining Caller_continue Scenario.stopped
              reachable_joining Hc Hs Hi)
    as [Hclosed [Hcl _]].
  split; assumption.
Defined.

(** A second thread of the program calls [start_thread] after the thread
    joined has exited and before the [join] returns: [stop_thread] then
    returns beside a thread that is alive, at its first test of the flag,
    which exits there. *)
Lemma join_returns_beside_started_thread :
  exists s' s'',
    run Scenario.json_loads Scenario.api_accepts
      [Other_start_thread; Caller_continue] Scenario.joining = Some s'
    /\ caller s' = Idle /\ is_alive 0 s' = false
    /\ threads s' !! 1 = Some AtCreate /\ is_alive 1 s' = true
    /\ sys_step Scenario.json_loads Scenario.api_accepts (Thread 1 Tau) s' = Some s''
    /\ threads s'' !! 1 = Some (Exited None) /\ sockets s'' = sockets s'.
Proof. vm_compute. do 2 eexists. repeat split. Qed.

Lemma one_thread_alive_witness :
  (reachable Scenario.json_loads Scenario.api_accepts Scenario.receiving /\
   is_alive 0 Scenario.receiving = true)
  /\ start_thread Scenario.receiving
     = raise (AssertionError "thread must not be already running").
Proof.
  split; [split; [exact reachable_receiving | reflexivity]|].
  exact (proj1 (proj1 (proj2 (one_thread_alive Scenario.json_loads Scenario.api_accepts
                                Scenario.receiving reachable_receiving)) 0 eq_refl)).
Defined.

Lemma maybe_create_client_asserts_hold_witness :
  (reachable Scenario.json_loads Scenario.api_accepts Scenario.stop_mid_connect /\
   threads Scenario.stop_mid_connect !! 0 = Some Connecting)
  /\ _client Scenario.stop_mid_connect = None.
Proof.
  split; [split; [exact reachable_stop_mid_connect | reflexivity]|].
  exact (proj1 (proj2 (maybe_create_client_asserts_hold Scenario.json_loads
                         Scenario.api_accepts Scenario.stop_mid_connect 0
                         reachable_stop_mid_connect)) eq_refl).
Defined.

Lemma later_receiving_stopped :
  later Scenario.json_loads Scenario.api_accepts Scenario.receiving Scenario.stopped.
Proof.
  apply (run_later _ _ [Call_stop_thread; Caller_continue;
                        Thread 0 (Recv (raise ConnectionClosedOK));
                        Caller_continue; Thread 0 Tau; Thread 0 Tau; Thread 0 Tau;
                        Caller_continue]).
  vm_compute. reflexivity.
Qed.

Lemma subscriptions_fixed_after_start_witness :
  (_thread Scenario.receiving <> None /\
   later Scenario.json_loads Scenario.api_accepts Scenario.receiving Scenario.stopped)
  /\ _subscriptions Scenario.stopped = _subscriptions Scenario.receiving.
Proof.
  assert (Hs : _thread Scenario.receiving <> None) by discriminate.
  split; [split; [exact Hs | exact later_receiving_stopped]|].
  exact (proj2 (subscriptions_fixed_after_start Scenario.json_loads Scenario.api_accepts
                  Scenario.receiving Scenario.stopped Hs later_receiving_stopped)).
Defined.

Lemma caller_never_assigns_client_witness :
  ((forall t ev, Call_stop_thread <> Thread t ev) /\
   sys_step Scenario.json_loads Scenario.api_accepts Call_stop_thread Scenario.receiving
   = Some (stop_thread_flag Scenario.receiving))
  /\ _client (stop_thread_flag Scenario.receiving) = _client Scenario.receiving.
Proof.
  assert (Hl : forall t ev, Call_stop_thread <> Thread t ev) by discriminate.
  assert (Hs : sys_step Scenario.json_loads Scenario.api_accepts Call_stop_thread
                 Scenario.receiving = Some (stop_thread_flag Scenario.receiving))
    by reflexivity.
  split; [split; assumption|].
  exact (caller_never_assigns_client Scenario.json_loads Scenario.api_accepts
           Call_stop_thread Scenario.receiving _ Hl Hs).
Defined.

Lemma exception_in_receive_loop_ends_thread_witness :
  (reachable Scenario.json_loads Scenario.api_accepts Scenario.receiving /\
   threads Scenario.receiving !! 0 = Some (InRecv 0) /\
   _handle_client_turn Scenario.json_loads Scenario.api_accepts
     (ok (Text "{not json")) Scenario.receiving
   = (Some (Some (ExternalError "JSONDecodeError")), Scenario.receiving))
  /\ exists s3,
       run Scenario.json_loads Scenario.api_accepts
         [Thread 0 (Recv (ok (Text "{not json"))); Thread 0 Tau; Thread 0 Tau]
         Scenario.receiving = Some s3
       /\ threads s3 !! 0 = Some (Exited (Some (ExternalError "JSONDecodeError"))).
Proof.
  assert (Hturn : _handle_client_turn Scenario.json_loads Scenario.api_accepts
                    (ok (Text "{not json")) Scenario.receiving
                  = (Some (Some (ExternalError "JSONDecodeError")), Scenario.receiving))
    by (vm_compute; reflexivity).
  split; [split; [exact reachable_receiving | split; [reflexivity | exact Hturn]]|].
  destruct (exception_in_receive_loop_ends_thread Scenario.json_loads
              Scenario.api_accepts Scenario.receiving 0 0 _ _ _
              reachable_receiving eq_refl Hturn) as [s3 H].
  exists s3. decompose [and] H. split; assumption.
Defined.

Lemma other_message_types_are_dropped_witness :
  (Scenario.json_loads_both "keepalive" = ok Scenario.keepalive /\
   message_type_of Scenario.keepalive = ok (JStr "session_keepalive") /\
   eq_str (JStr "session_keepalive") "session_welcome" = false /\
   threads Scenario.receiving !! 0 = Some (InRecv 0))
  /\ thread_step Scenario.json_loads_both Scenario.api_accepts 0
       (Recv (ok (Text "keepalive"))) Scenario.receiving
     = Some Scenario.receiving.
Proof.
  split; [repeat split|].
  exact (proj2 (other_message_types_are_dropped Scenario.json_loads_both
                  Scenario.api_accepts Scenario.receiving 0 0 "keepalive"
                  Scenario.keepalive (JStr "session_keepalive")
                  eq_refl eq_refl eq_refl) eq_refl).
Defined.

Lemma rejected_request_ends_loop_witness :
  (request_each Scenario.api_accepts_one (JStr "S1")
     [Subscription "channel.follow" "2" Scenario.follow_condition] []
   = (ok tt, [subscription_request (JStr "S1")
                (Subscription "channel.follow" "2" Scenario.follow_condition)]) /\
   Scenario.api_accepts_one
     [subscription_request (JStr "S1")
        (Subscription "channel.follow" "2" Scenario.follow_condition)]
     (subscription_request (JStr "S1")
        (Subscription "channel.subscribe" "1" Scenario.subscribe_condition))
   = Some (ExternalError "429 Too Many Requests"))
  /\ request_each Scenario.api_accepts_one (JStr "S1")
       ([Subscription "channel.follow" "2" Scenario.follow_condition]
        ++ Subscription "channel.subscribe" "1" Scenario.subscribe_condition
           :: [Subscription "channel.ban" "1" Scenario.subscribe_condition]) []
     = (raise (ExternalError "429 Too Many Requests"),
        [] ++ List.map (subscription_request (JStr "S1"))
                [Subscription "channel.follow" "2" Scenario.follow_condition]
           ++ [subscription_request (JStr "S1")
                 (Subscription "channel.subscribe" "1" Scenario.subscribe_condition)]).
Proof.
  split; [split; reflexivity|].
  exact (rejected_request_ends_loop Scenario.api_accepts_one (JStr "S1")
           [Subscription "channel.follow" "2" Scenario.follow_condition]
           (Subscription "channel.subscribe" "1" Scenario.subscribe_condition)
           [Subscription "channel.ban" "1" Scenario.subscribe_condition] [] _ _
           eq_refl eq_refl).
Defined.

Lemma stop_thread_not_running_witness :
  (reachable Scenario.json_loads Scenario.api_accepts Scenario.registered /\
   caller Scenario.registered = Idle /\
   forall t, _thread Scenario.registered = Some t ->
             is_alive t Scenario.registered = false)
  /\ run Scenario.json_loads Scenario.api_accepts
       [Call_stop_thread; Caller_continue; Caller_continue; Caller_continue]
       Scenario.registered
     = Some (set_should_stop true Scenario.registered).
Proof.
  assert (Hdead : forall t, _thread Scenario.registered = Some t ->
                            is_alive t Scenario.registered = false)
    by (intros t H; discriminate H).
  split; [split; [exact reachable_registered | split; [reflexivity | exact Hdead]]|].
  exact (stop_thread_not_running Scenario.json_loads Scenario.api_accepts
           Scenario.registered reachable_registered eq_refl Hdead).
Defined.

Lemma stop_thread_closes_current_client_witness :
  (reachable Scenario.json_loads Scenario.api_accepts Scenario.receiving /\
   caller Scenario.receiving = Idle /\ _client Scenario.receiving = Some 0)
  /\ exists s2,
       run Scenario.json_loads Scenario.api_accepts
         [Call_stop_thread; Caller_continue] Scenario.receiving = Some s2
       /\ sockets s2 !! 0 = Some SockClosed.
Proof.
  split; [split; [exact reachable_receiving | split; reflexivity]|].
  destruct (stop_thread_closes_current_client Scenario.json_loads Scenario.api_accepts
              Scenario.receiving 0 reachable_receiving eq_refl eq_refl)
    as [s2 [t H]].
  exists s2. decompose [and] H. split; assumption.
Defined.

Lemma stop_thread_while_receiving_witness :
  (reachable Scenario.json_loads Scenario.api_accepts Scenario.receiving /\
   caller Scenario.receiving = Idle /\
   threads Scenario.receiving !! 0 = Some (InRecv 0))
  /\ exists s',
       run Scenario.json_loads Scenario.api_accepts
         [Call_stop_thread; Caller_continue;
          Thread 0 (Recv (raise ConnectionClosedOK));
          Thread 0 Tau; Thread 0 Tau; Thread 0 Tau;
          Caller_continue; Caller_continue] Scenario.receiving = Some s'
       /\ all_exited s' /\ all_closed s'.
Proof.
  split; [split; [exact reachable_receiving | split; reflexivity]|].
  destruct (stop_thread_while_receiving Scenario.json_loads Scenario.api_accepts
              Scenario.receiving 0 0 reachable_receiving eq_refl eq_refl)
    as [s' H].
  exists s'. decompose [and] H. repeat split; assumption.
Defined.

End EventSubFacts.
